(** * Contact hub: validation, mock store and list projection

    A shallow embedding of
    - the contact form, component [AddContactModal] (second part of
      src/components/SearchBar.tsx): [validateEmail], [validatePhone],
      [validateForm], [handleSubmit];
    - the mock contact store, module lib/api/contacts: [fetchContacts],
      [searchContacts], [createContact], [updateContact], [deleteContact];
    - the list projection of src/components/ContactList.tsx:
      [filteredContacts], [sortedContacts], [contactCards];
    - the texts of src/components/ContactCard.tsx.

    A JavaScript string is its sequence of UTF-16 code units, carried here
    by [N]; [length], [split], [includes], [trim] and the regular
    expressions of the form work on code units, [toLowerCase] and
    [encodeURIComponent] on the code points the units spell. *)

From Stdlib Require Import List Ascii Bool Arith NArith ZArith Lia ZifyBool.
From Stdlib Require Import Permutation Sorted.
From Stdlib Require String.
Import ListNotations.
Import String.StringSyntax.

Local Open Scope string_scope.

Local Open Scope list_scope.
Local Open Scope nat_scope.

(* ================================================================= *)
(** ** JavaScript strings, objects and regular expressions *)

Module Js.

Definition jsstring := list N.

(** The code unit of an ASCII character, and the string literals of the
    source, which are all ASCII. *)
Definition ch (a : ascii) : N := N_of_ascii a.

Arguments ch a : simpl never.

Definition str (s : String.string) : jsstring :=
  map ch (String.list_ascii_of_string s).

Definition in_range (lo hi c : N) : bool := N.leb lo c && N.leb c hi.

(** WhiteSpace and LineTerminator: TAB, LF, VT, FF, CR, the space
    separators (SP, NBSP, U+1680, U+2000..U+200A, U+202F, U+205F, U+3000),
    LS, PS and U+FEFF.  Both [String.prototype.trim] and the class \s use
    this set. *)
Definition is_ws (c : N) : bool :=
  in_range 9 13 c || N.eqb c 32 || N.eqb c 160 || N.eqb c 0x1680
  || in_range 0x2000 0x200A c || in_range 0x2028 0x2029 c
  || N.eqb c 0x202F || N.eqb c 0x205F || N.eqb c 0x3000 || N.eqb c 0xFEFF.

(** The class \d: the ten ASCII digits. *)
Definition is_digit (c : N) : bool := in_range 48 57 c.

(** The class [a-zA-Z]. *)
Definition is_alpha (c : N) : bool :=
  in_range 97 122 c || in_range 65 90 c.

Definition is_char (x c : N) : bool := N.eqb c x.

(** [s === t] on strings. *)
Fixpoint streq (s t : jsstring) : bool :=
  match s, t with
  | [], [] => true
  | a :: s', b :: t' => N.eqb a b && streq s' t'
  | _, _ => false
  end.

(** [!s] for a string [s]: the empty string is the only falsy string. *)
Definition is_empty (s : jsstring) : bool :=
  match s with [] => true | _ :: _ => false end.

(** *** String.prototype.toLowerCase

    The string is read as code points: a high surrogate followed by a low
    one spells one supplementary code point, every other unit stands for
    itself.  Each code point is replaced by its lower-case mapping of the
    Unicode Character Database: the simple mapping of UnicodeData.txt,
    except that U+0130 becomes U+0069 U+0307 and that U+03A3 becomes
    U+03C2 in the Final_Sigma context and U+03C3 elsewhere.  The tables
    below are those of version 14.0 of the database. *)
Inductive point : Type :=
| Unit (u : N)
| Pair (hi lo : N).

Definition is_high (u : N) : bool := in_range 0xD800 0xDBFF u.
Definition is_low (u : N) : bool := in_range 0xDC00 0xDFFF u.

Fixpoint decode (s : jsstring) : list point :=
  match s with
  | [] => []
  | hi :: s' =>
      match s' with
      | lo :: s'' =>
          if is_high hi && is_low lo then Pair hi lo :: decode s''
          else Unit hi :: decode s'
      | [] => [Unit hi]
      end
  end.

(** The code units a point was read from. *)
Definition units (p : point) : jsstring :=
  match p with
  | Unit u => [u]
  | Pair hi lo => [hi; lo]
  end.

(** A pair is a high surrogate followed by a low one. *)
Definition paired (p : point) : Prop :=
  match p with
  | Unit _ => True
  | Pair hi lo => is_high hi = true /\ is_low lo = true
  end.

Definition value (p : point) : N :=
  match p with
  | Unit u => u
  | Pair hi lo => (0x10000 + (hi - 0xD800) * 0x400 + (lo - 0xDC00))%N
  end.

Definition units_of_code (cp : N) : jsstring :=
  if N.ltb cp 0x10000 then [cp]
  else [ (0xD800 + (cp - 0x10000) / 0x400)%N;
         (0xDC00 + (cp - 0x10000) mod 0x400)%N ].

(** The simple lower-case mappings: [(first, last, step, image)] sends
    first, first + step, ..., last to image, image + step, ... *)
Definition lower_table : list (N * N * N * N) :=
  [
    (65, 90, 1, 97); (192, 214, 1, 224); (216, 222, 1, 248);
    (256, 302, 2, 257); (306, 310, 2, 307); (313, 327, 2, 314);
    (330, 374, 2, 331); (376, 376, 1, 255); (377, 381, 2, 378);
    (385, 385, 1, 595); (386, 388, 2, 387); (390, 390, 1, 596);
    (391, 391, 1, 392); (393, 394, 1, 598); (395, 395, 1, 396);
    (398, 398, 1, 477); (399, 399, 1, 601); (400, 400, 1, 603);
    (401, 401, 1, 402); (403, 403, 1, 608); (404, 404, 1, 611);
    (406, 406, 1, 617); (407, 407, 1, 616); (408, 408, 1, 409);
    (412, 412, 1, 623); (413, 413, 1, 626); (415, 415, 1, 629);
    (416, 420, 2, 417); (422, 422, 1, 640); (423, 423, 1, 424);
    (425, 425, 1, 643); (428, 428, 1, 429); (430, 430, 1, 648);
    (431, 431, 1, 432); (433, 434, 1, 650); (435, 437, 2, 436);
    (439, 439, 1, 658); (440, 440, 1, 441); (444, 444, 1, 445);
    (452, 452, 1, 454); (453, 453, 1, 454); (455, 455, 1, 457);
    (456, 456, 1, 457); (458, 458, 1, 460); (459, 475, 2, 460);
    (478, 494, 2, 479); (497, 497, 1, 499); (498, 500, 2, 499);
    (502, 502, 1, 405); (503, 503, 1, 447); (504, 542, 2, 505);
    (544, 544, 1, 414); (546, 562, 2, 547); (570, 570, 1, 11365);
    (571, 571, 1, 572); (573, 573, 1, 410); (574, 574, 1, 11366);
    (577, 577, 1, 578); (579, 579, 1, 384); (580, 580, 1, 649);
    (581, 581, 1, 652); (582, 590, 2, 583); (880, 882, 2, 881);
    (886, 886, 1, 887); (895, 895, 1, 1011); (902, 902, 1, 940);
    (904, 906, 1, 941); (908, 908, 1, 972); (910, 911, 1, 973);
    (913, 929, 1, 945); (931, 939, 1, 963); (975, 975, 1, 983);
    (984, 1006, 2, 985); (1012, 1012, 1, 952); (1015, 1015, 1, 1016);
    (1017, 1017, 1, 1010); (1018, 1018, 1, 1019); (1021, 1023, 1, 891);
    (1024, 1039, 1, 1104); (1040, 1071, 1, 1072); (1120, 1152, 2, 1121);
    (1162, 1214, 2, 1163); (1216, 1216, 1, 1231); (1217, 1229, 2, 1218);
    (1232, 1326, 2, 1233); (1329, 1366, 1, 1377); (4256, 4293, 1, 11520);
    (4295, 4295, 1, 11559); (4301, 4301, 1, 11565); (5024, 5103, 1, 43888);
    (5104, 5109, 1, 5112); (7312, 7354, 1, 4304); (7357, 7359, 1, 4349);
    (7680, 7828, 2, 7681); (7838, 7838, 1, 223); (7840, 7934, 2, 7841);
    (7944, 7951, 1, 7936); (7960, 7965, 1, 7952); (7976, 7983, 1, 7968);
    (7992, 7999, 1, 7984); (8008, 8013, 1, 8000); (8025, 8031, 2, 8017);
    (8040, 8047, 1, 8032); (8072, 8079, 1, 8064); (8088, 8095, 1, 8080);
    (8104, 8111, 1, 8096); (8120, 8121, 1, 8112); (8122, 8123, 1, 8048);
    (8124, 8124, 1, 8115); (8136, 8139, 1, 8050); (8140, 8140, 1, 8131);
    (8152, 8153, 1, 8144); (8154, 8155, 1, 8054); (8168, 8169, 1, 8160);
    (8170, 8171, 1, 8058); (8172, 8172, 1, 8165); (8184, 8185, 1, 8056);
    (8186, 8187, 1, 8060); (8188, 8188, 1, 8179); (8486, 8486, 1, 969);
    (8490, 8490, 1, 107); (8491, 8491, 1, 229); (8498, 8498, 1, 8526);
    (8544, 8559, 1, 8560); (8579, 8579, 1, 8580); (9398, 9423, 1, 9424);
    (11264, 11311, 1, 11312); (11360, 11360, 1, 11361);
    (11362, 11362, 1, 619); (11363, 11363, 1, 7549); (11364, 11364, 1, 637);
    (11367, 11371, 2, 11368); (11373, 11373, 1, 593); (11374, 11374, 1, 625);
    (11375, 11375, 1, 592); (11376, 11376, 1, 594); (11378, 11378, 1, 11379);
    (11381, 11381, 1, 11382); (11390, 11391, 1, 575);
    (11392, 11490, 2, 11393); (11499, 11501, 2, 11500);
    (11506, 11506, 1, 11507); (42560, 42604, 2, 42561);
    (42624, 42650, 2, 42625); (42786, 42798, 2, 42787);
    (42802, 42862, 2, 42803); (42873, 42875, 2, 42874);
    (42877, 42877, 1, 7545); (42878, 42886, 2, 42879);
    (42891, 42891, 1, 42892); (42893, 42893, 1, 613);
    (42896, 42898, 2, 42897); (42902, 42920, 2, 42903);
    (42922, 42922, 1, 614); (42923, 42923, 1, 604); (42924, 42924, 1, 609);
    (42925, 42925, 1, 620); (42926, 42926, 1, 618); (42928, 42928, 1, 670);
    (42929, 42929, 1, 647); (42930, 42930, 1, 669); (42931, 42931, 1, 43859);
    (42932, 42946, 2, 42933); (42948, 42948, 1, 42900);
    (42949, 42949, 1, 642); (42950, 42950, 1, 7566); (42951, 42953, 2, 42952);
    (42960, 42960, 1, 42961); (42966, 42968, 2, 42967);
    (42997, 42997, 1, 42998); (65313, 65338, 1, 65345);
    (66560, 66599, 1, 66600); (66736, 66771, 1, 66776);
    (66928, 66938, 1, 66967); (66940, 66954, 1, 66979);
    (66956, 66962, 1, 66995); (66964, 66965, 1, 67003);
    (68736, 68786, 1, 68800); (71840, 71871, 1, 71872);
    (93760, 93791, 1, 93792); (125184, 125217, 1, 125218)
  ]%N.

Definition covers (cp : N) (e : N * N * N * N) : bool :=
  let '(first, last, step, _) := e in
  in_range first last cp && N.eqb ((cp - first) mod step) 0.

Definition simple_lower (cp : N) : N :=
  match find (covers cp) lower_table with
  | Some (first, _, _, image) => (image + (cp - first))%N
  | None => cp
  end.

(** The code points with the property Case_Ignorable, and those with the
    property Cased that are not Case_Ignorable, as ranges. *)
Definition case_ignorable_table : list (N * N) :=
  [
    (39, 39); (46, 46); (58, 58); (94, 94); (96, 96); (168, 168); (173, 173);
    (175, 175); (180, 180); (183, 184); (688, 879); (884, 885); (890, 890);
    (900, 901); (903, 903); (1155, 1161); (1369, 1369); (1375, 1375);
    (1425, 1469); (1471, 1471); (1473, 1474); (1476, 1477); (1479, 1479);
    (1524, 1524); (1536, 1541); (1552, 1562); (1564, 1564); (1600, 1600);
    (1611, 1631); (1648, 1648); (1750, 1757); (1759, 1768); (1770, 1773);
    (1807, 1807); (1809, 1809); (1840, 1866); (1958, 1968); (2027, 2037);
    (2042, 2042); (2045, 2045); (2070, 2093); (2137, 2139); (2184, 2184);
    (2192, 2193); (2200, 2207); (2249, 2306); (2362, 2362); (2364, 2364);
    (2369, 2376); (2381, 2381); (2385, 2391); (2402, 2403); (2417, 2417);
    (2433, 2433); (2492, 2492); (2497, 2500); (2509, 2509); (2530, 2531);
    (2558, 2558); (2561, 2562); (2620, 2620); (2625, 2626); (2631, 2632);
    (2635, 2637); (2641, 2641); (2672, 2673); (2677, 2677); (2689, 2690);
    (2748, 2748); (2753, 2757); (2759, 2760); (2765, 2765); (2786, 2787);
    (2810, 2815); (2817, 2817); (2876, 2876); (2879, 2879); (2881, 2884);
    (2893, 2893); (2901, 2902); (2914, 2915); (2946, 2946); (3008, 3008);
    (3021, 3021); (3072, 3072); (3076, 3076); (3132, 3132); (3134, 3136);
    (3142, 3144); (3146, 3149); (3157, 3158); (3170, 3171); (3201, 3201);
    (3260, 3260); (3263, 3263); (3270, 3270); (3276, 3277); (3298, 3299);
    (3328, 3329); (3387, 3388); (3393, 3396); (3405, 3405); (3426, 3427);
    (3457, 3457); (3530, 3530); (3538, 3540); (3542, 3542); (3633, 3633);
    (3636, 3642); (3654, 3662); (3761, 3761); (3764, 3772); (3782, 3782);
    (3784, 3789); (3864, 3865); (3893, 3893); (3895, 3895); (3897, 3897);
    (3953, 3966); (3968, 3972); (3974, 3975); (3981, 3991); (3993, 4028);
    (4038, 4038); (4141, 4144); (4146, 4151); (4153, 4154); (4157, 4158);
    (4184, 4185); (4190, 4192); (4209, 4212); (4226, 4226); (4229, 4230);
    (4237, 4237); (4253, 4253); (4348, 4348); (4957, 4959); (5906, 5908);
    (5938, 5939); (5970, 5971); (6002, 6003); (6068, 6069); (6071, 6077);
    (6086, 6086); (6089, 6099); (6103, 6103); (6109, 6109); (6155, 6159);
    (6211, 6211); (6277, 6278); (6313, 6313); (6432, 6434); (6439, 6440);
    (6450, 6450); (6457, 6459); (6679, 6680); (6683, 6683); (6742, 6742);
    (6744, 6750); (6752, 6752); (6754, 6754); (6757, 6764); (6771, 6780);
    (6783, 6783); (6823, 6823); (6832, 6862); (6912, 6915); (6964, 6964);
    (6966, 6970); (6972, 6972); (6978, 6978); (7019, 7027); (7040, 7041);
    (7074, 7077); (7080, 7081); (7083, 7085); (7142, 7142); (7144, 7145);
    (7149, 7149); (7151, 7153); (7212, 7219); (7222, 7223); (7288, 7293);
    (7376, 7378); (7380, 7392); (7394, 7400); (7405, 7405); (7412, 7412);
    (7416, 7417); (7468, 7530); (7544, 7544); (7579, 7679); (8125, 8125);
    (8127, 8129); (8141, 8143); (8157, 8159); (8173, 8175); (8189, 8190);
    (8203, 8207); (8216, 8217); (8228, 8228); (8231, 8231); (8234, 8238);
    (8288, 8292); (8294, 8303); (8305, 8305); (8319, 8319); (8336, 8348);
    (8400, 8432); (11388, 11389); (11503, 11505); (11631, 11631);
    (11647, 11647); (11744, 11775); (11823, 11823); (12293, 12293);
    (12330, 12333); (12337, 12341); (12347, 12347); (12441, 12446);
    (12540, 12542); (40981, 40981); (42232, 42237); (42508, 42508);
    (42607, 42610); (42612, 42621); (42623, 42623); (42652, 42655);
    (42736, 42737); (42752, 42785); (42864, 42864); (42888, 42890);
    (42994, 42996); (43000, 43001); (43010, 43010); (43014, 43014);
    (43019, 43019); (43045, 43046); (43052, 43052); (43204, 43205);
    (43232, 43249); (43263, 43263); (43302, 43309); (43335, 43345);
    (43392, 43394); (43443, 43443); (43446, 43449); (43452, 43453);
    (43471, 43471); (43493, 43494); (43561, 43566); (43569, 43570);
    (43573, 43574); (43587, 43587); (43596, 43596); (43632, 43632);
    (43644, 43644); (43696, 43696); (43698, 43700); (43703, 43704);
    (43710, 43711); (43713, 43713); (43741, 43741); (43756, 43757);
    (43763, 43764); (43766, 43766); (43867, 43871); (43881, 43883);
    (44005, 44005); (44008, 44008); (44013, 44013); (64286, 64286);
    (64434, 64450); (65024, 65039); (65043, 65043); (65056, 65071);
    (65106, 65106); (65109, 65109); (65279, 65279); (65287, 65287);
    (65294, 65294); (65306, 65306); (65342, 65342); (65344, 65344);
    (65392, 65392); (65438, 65439); (65507, 65507); (65529, 65531);
    (66045, 66045); (66272, 66272); (66422, 66426); (67456, 67461);
    (67463, 67504); (67506, 67514); (68097, 68099); (68101, 68102);
    (68108, 68111); (68152, 68154); (68159, 68159); (68325, 68326);
    (68900, 68903); (69291, 69292); (69446, 69456); (69506, 69509);
    (69633, 69633); (69688, 69702); (69744, 69744); (69747, 69748);
    (69759, 69761); (69811, 69814); (69817, 69818); (69821, 69821);
    (69826, 69826); (69837, 69837); (69888, 69890); (69927, 69931);
    (69933, 69940); (70003, 70003); (70016, 70017); (70070, 70078);
    (70089, 70092); (70095, 70095); (70191, 70193); (70196, 70196);
    (70198, 70199); (70206, 70206); (70367, 70367); (70371, 70378);
    (70400, 70401); (70459, 70460); (70464, 70464); (70502, 70508);
    (70512, 70516); (70712, 70719); (70722, 70724); (70726, 70726);
    (70750, 70750); (70835, 70840); (70842, 70842); (70847, 70848);
    (70850, 70851); (71090, 71093); (71100, 71101); (71103, 71104);
    (71132, 71133); (71219, 71226); (71229, 71229); (71231, 71232);
    (71339, 71339); (71341, 71341); (71344, 71349); (71351, 71351);
    (71453, 71455); (71458, 71461); (71463, 71467); (71727, 71735);
    (71737, 71738); (71995, 71996); (71998, 71998); (72003, 72003);
    (72148, 72151); (72154, 72155); (72160, 72160); (72193, 72202);
    (72243, 72248); (72251, 72254); (72263, 72263); (72273, 72278);
    (72281, 72283); (72330, 72342); (72344, 72345); (72752, 72758);
    (72760, 72765); (72767, 72767); (72850, 72871); (72874, 72880);
    (72882, 72883); (72885, 72886); (73009, 73014); (73018, 73018);
    (73020, 73021); (73023, 73029); (73031, 73031); (73104, 73105);
    (73109, 73109); (73111, 73111); (73459, 73460); (78896, 78904);
    (92912, 92916); (92976, 92982); (92992, 92995); (94031, 94031);
    (94095, 94111); (94176, 94177); (94179, 94180); (110576, 110579);
    (110581, 110587); (110589, 110590); (113821, 113822); (113824, 113827);
    (118528, 118573); (118576, 118598); (119143, 119145); (119155, 119170);
    (119173, 119179); (119210, 119213); (119362, 119364); (121344, 121398);
    (121403, 121452); (121461, 121461); (121476, 121476); (121499, 121503);
    (121505, 121519); (122880, 122886); (122888, 122904); (122907, 122913);
    (122915, 122916); (122918, 122922); (123184, 123197); (123566, 123566);
    (123628, 123631); (125136, 125142); (125252, 125259); (127995, 127999);
    (917505, 917505); (917536, 917631); (917760, 917999)
  ]%N.

Definition cased_table : list (N * N) :=
  [
    (65, 90); (97, 122); (170, 170); (181, 181); (186, 186); (192, 214);
    (216, 246); (248, 442); (444, 447); (452, 659); (661, 687); (880, 883);
    (886, 887); (891, 893); (895, 895); (902, 902); (904, 906); (908, 908);
    (910, 929); (931, 1013); (1015, 1153); (1162, 1327); (1329, 1366);
    (1376, 1416); (4256, 4293); (4295, 4295); (4301, 4301); (4304, 4346);
    (4349, 4351); (5024, 5109); (5112, 5117); (7296, 7304); (7312, 7354);
    (7357, 7359); (7424, 7467); (7531, 7543); (7545, 7578); (7680, 7957);
    (7960, 7965); (7968, 8005); (8008, 8013); (8016, 8023); (8025, 8025);
    (8027, 8027); (8029, 8029); (8031, 8061); (8064, 8116); (8118, 8124);
    (8126, 8126); (8130, 8132); (8134, 8140); (8144, 8147); (8150, 8155);
    (8160, 8172); (8178, 8180); (8182, 8188); (8450, 8450); (8455, 8455);
    (8458, 8467); (8469, 8469); (8473, 8477); (8484, 8484); (8486, 8486);
    (8488, 8488); (8490, 8493); (8495, 8500); (8505, 8505); (8508, 8511);
    (8517, 8521); (8526, 8526); (8544, 8575); (8579, 8580); (9398, 9449);
    (11264, 11387); (11390, 11492); (11499, 11502); (11506, 11507);
    (11520, 11557); (11559, 11559); (11565, 11565); (42560, 42605);
    (42624, 42651); (42786, 42863); (42865, 42887); (42891, 42894);
    (42896, 42954); (42960, 42961); (42963, 42963); (42965, 42969);
    (42997, 42998); (43002, 43002); (43824, 43866); (43872, 43880);
    (43888, 43967); (64256, 64262); (64275, 64279); (65313, 65338);
    (65345, 65370); (66560, 66639); (66736, 66771); (66776, 66811);
    (66928, 66938); (66940, 66954); (66956, 66962); (66964, 66965);
    (66967, 66977); (66979, 66993); (66995, 67001); (67003, 67004);
    (68736, 68786); (68800, 68850); (71840, 71903); (93760, 93823);
    (119808, 119892); (119894, 119964); (119966, 119967); (119970, 119970);
    (119973, 119974); (119977, 119980); (119982, 119993); (119995, 119995);
    (119997, 120003); (120005, 120069); (120071, 120074); (120077, 120084);
    (120086, 120092); (120094, 120121); (120123, 120126); (120128, 120132);
    (120134, 120134); (120138, 120144); (120146, 120485); (120488, 120512);
    (120514, 120538); (120540, 120570); (120572, 120596); (120598, 120628);
    (120630, 120654); (120656, 120686); (120688, 120712); (120714, 120744);
    (120746, 120770); (120772, 120779); (122624, 122633); (122635, 122654);
    (125184, 125251); (127280, 127305); (127312, 127337); (127344, 127369)
  ]%N.

Definition in_table (table : list (N * N)) (cp : N) : bool :=
  existsb (fun r => in_range (fst r) (snd r) cp) table.

(** Skipping case-ignorable code points, is the next one cased? *)
Fixpoint cased_next (ps : list point) : bool :=
  match ps with
  | [] => false
  | p :: ps' =>
      if in_table case_ignorable_table (value p) then cased_next ps'
      else in_table cased_table (value p)
  end.

(** Final_Sigma: a cased letter before, none after.  [before] lists the
    preceding code points, the nearest first. *)
Definition final_sigma (before after : list point) : bool :=
  cased_next before && negb (cased_next after).

Definition lower_point (before after : list point) (p : point) : jsstring :=
  match p with
  | Unit u =>
      if N.eqb u 0x3A3
      then [if final_sigma before after then 0x3C2%N else 0x3C3%N]
      else if N.eqb u 0x130 then [0x69%N; 0x307%N]
      else units_of_code (simple_lower u)
  | Pair _ _ => units_of_code (simple_lower (value p))
  end.

Fixpoint lower_points (before ps : list point) : jsstring :=
  match ps with
  | [] => []
  | p :: after =>
      lower_point before after p ++ lower_points (p :: before) after
  end.

Definition toLowerCase (s : jsstring) : jsstring :=
  lower_points [] (decode s).

Arguments toLowerCase s : simpl never.

(** [String.prototype.trim]. *)
Fixpoint trimStart (s : jsstring) : jsstring :=
  match s with
  | [] => []
  | c :: s' => if is_ws c then trimStart s' else s
  end.

Definition trimEnd (s : jsstring) : jsstring := rev (trimStart (rev s)).

Definition trim (s : jsstring) : jsstring := trimEnd (trimStart s).

(** [s.split(sep)] for a one-character separator: never the empty array. *)
Fixpoint split (sep : N) (s : jsstring) : list jsstring :=
  match s with
  | [] => [[]]
  | c :: s' =>
      if N.eqb c sep then [] :: split sep s'
      else match split sep s' with
           | piece :: pieces => (c :: piece) :: pieces
           | [] => [[c]]
           end
  end.

(** [s.includes(q)]. *)
Fixpoint startsWith (s q : jsstring) {struct q} : bool :=
  match q, s with
  | [], _ => true
  | _ :: _, [] => false
  | b :: q', a :: s' => N.eqb a b && startsWith s' q'
  end.

Fixpoint includes (s q : jsstring) : bool :=
  startsWith s q ||
  match s with
  | [] => false
  | _ :: s' => includes s' q
  end.

(** Regular expressions, as far as the two patterns of the form use them,
    matched by derivatives.  Without the flag u a pattern reads the string
    code unit by code unit; anchored by ^ and $ (no flags) it tests the
    whole string. *)
Inductive regex : Type :=
| Void
| Eps
| Class (p : N -> bool)
| Seq (r1 r2 : regex)
| Alt (r1 r2 : regex)
| Star (r : regex).

(** [r+] and [r{2,}]. *)
Definition Plus (r : regex) : regex := Seq r (Star r).
Definition AtLeast2 (r : regex) : regex := Seq r (Seq r (Star r)).

Fixpoint nullable (r : regex) : bool :=
  match r with
  | Void => false
  | Eps => true
  | Class _ => false
  | Seq r1 r2 => nullable r1 && nullable r2
  | Alt r1 r2 => nullable r1 || nullable r2
  | Star _ => true
  end.

Fixpoint deriv (c : N) (r : regex) : regex :=
  match r with
  | Void => Void
  | Eps => Void
  | Class p => if p c then Eps else Void
  | Seq r1 r2 =>
      if nullable r1
      then Alt (Seq (deriv c r1) r2) (deriv c r2)
      else Seq (deriv c r1) r2
  | Alt r1 r2 => Alt (deriv c r1) (deriv c r2)
  | Star r1 => Seq (deriv c r1) (Star r1)
  end.

Fixpoint test (r : regex) (s : jsstring) : bool :=
  match s with
  | [] => nullable r
  | c :: s' => test (deriv c r) s'
  end.

(** The language of a pattern, against which [test] is proved below. *)
Inductive lang : regex -> jsstring -> Prop :=
| lang_eps : lang Eps []
| lang_class p c : p c = true -> lang (Class p) [c]
| lang_seq r1 r2 s1 s2 :
    lang r1 s1 -> lang r2 s2 -> lang (Seq r1 r2) (s1 ++ s2)
| lang_alt_l r1 r2 s : lang r1 s -> lang (Alt r1 r2) s
| lang_alt_r r1 r2 s : lang r2 s -> lang (Alt r1 r2) s
| lang_star_nil r : lang (Star r) []
| lang_star_app r s1 s2 :
    lang r s1 -> lang (Star r) s2 -> lang (Star r) (s1 ++ s2).

(** Values a property read can produce on the object literals of the form:
    an own string, or what [Object.prototype] supplies. *)
Inductive jsval : Type :=
| JString (s : jsstring)
| JFunction (name : jsstring)
| JObjectPrototype.

(** The properties every object literal inherits from [Object.prototype]. *)
Definition object_prototype : list (jsstring * jsval) :=
  [ (str "constructor", JFunction (str "Object"));
    (str "__defineGetter__", JFunction (str "__defineGetter__"));
    (str "__defineSetter__", JFunction (str "__defineSetter__"));
    (str "hasOwnProperty", JFunction (str "hasOwnProperty"));
    (str "__lookupGetter__", JFunction (str "__lookupGetter__"));
    (str "__lookupSetter__", JFunction (str "__lookupSetter__"));
    (str "isPrototypeOf", JFunction (str "isPrototypeOf"));
    (str "propertyIsEnumerable", JFunction (str "propertyIsEnumerable"));
    (str "toString", JFunction (str "toString"));
    (str "valueOf", JFunction (str "valueOf"));
    (str "__proto__", JObjectPrototype);
    (str "toLocaleString", JFunction (str "toLocaleString")) ].

Fixpoint assoc {A : Type} (k : jsstring) (l : list (jsstring * A))
  : option A :=
  match l with
  | [] => None
  | (k', v) :: l' => if streq k k' then Some v else assoc k l'
  end.

(** [table[k]] on a [Record<string, string>] object literal; [None] is
    [undefined]. *)
Definition get (table : list (jsstring * jsstring)) (k : jsstring)
  : option jsval :=
  match assoc k table with
  | Some v => Some (JString v)
  | None => assoc k object_prototype
  end.

(** Truthiness of the result of a property read. *)
Definition truthy (v : option jsval) : bool :=
  match v with
  | None => false
  | Some (JString s) => negb (is_empty s)
  | Some _ => true
  end.

(** The text a value contributes to a template literal. *)
Definition template (v : option jsval) : jsstring :=
  match v with
  | None => str "undefined"
  | Some (JString s) => s
  | Some (JFunction f) => str "function " ++ f ++ str "() { [native code] }"
  | Some JObjectPrototype => str "[object Object]"
  end.

(** An optional property [key?: string] of an object: the key is missing,
    or it is present and holds [undefined], or it holds a string. *)
Inductive optional : Type :=
| Missing
| Undefined
| Val (s : jsstring).

(** [s || undefined]. *)
Definition or_undefined (s : jsstring) : optional :=
  if is_empty s then Undefined else Val s.

(** [o || ""]. *)
Definition or_empty (o : optional) : jsstring :=
  match o with
  | Val s => s
  | _ => []
  end.

(** The truth value of [o?.method(...)] for a method returning a
    boolean: [undefined], hence falsy, when [o] is absent. *)
Definition chain (o : optional) (method : jsstring -> bool) : bool :=
  match o with
  | Val s => method s
  | _ => false
  end.

(** The property [key] of [{ ...old, ...updates }]. *)
Definition spread (old updates : optional) : optional :=
  match updates with
  | Missing => old
  | _ => updates
  end.

End Js.

(* ================================================================= *)
(** ** The contact form (components/AddContactModal) *)

(** The state [formData] of the form. *)
Module FormData.
Record t : Type := mk {
  name : Js.jsstring;
  email : Js.jsstring;
  phone : Js.jsstring;
  avatar : Js.jsstring
}.
End FormData.

(** [Omit<Contact, "id">]: what the form commits and what the store's
    [createContact] and [updateContact] receive. *)
Module ContactData.
Record t : Type := mk {
  name : Js.jsstring;
  email : Js.optional;
  phone : Js.optional;
  avatar : Js.optional
}.
End ContactData.

(** [interface Contact]. *)
Module Contact.
Record t : Type := mk {
  id : Js.jsstring;
  name : Js.jsstring;
  email : Js.optional;
  phone : Js.optional;
  avatar : Js.optional
}.
End Contact.

(** [interface FormErrors]; [None] is a key that was never set. *)
Module FormErrors.
Record t : Type := mk {
  name : option Js.jsstring;
  email : option Js.jsstring;
  phone : option Js.jsstring
}.
End FormErrors.

Module Form.
Import Js.

(** /^[^\s@]+@[^\s@]+\.[a-zA-Z]{2,}$/ *)
Definition not_ws_at (c : N) : bool :=
  negb (is_ws c || is_char (ch "@") c).

Definition basicRegex : regex :=
  Seq (Plus (Class not_ws_at))
   (Seq (Class (is_char (ch "@")))
     (Seq (Plus (Class not_ws_at))
       (Seq (Class (is_char (ch ".")))
            (AtLeast2 (Class is_alpha))))).

(** /^[\d\s\-\+\(\)]+$/ *)
Definition phone_char (c : N) : bool :=
  is_digit c || is_ws c || is_char (ch "-") c || is_char (ch "+") c
  || is_char (ch "(") c || is_char (ch ")") c.

Definition phoneRegex : regex := Plus (Class phone_char).

Definition typoDomains : list (jsstring * jsstring) :=
  [ (str "gamil.com", str "gmail.com");
    (str "gmial.com", str "gmail.com");
    (str "gmai.com", str "gmail.com");
    (str "yahooo.com", str "yahoo.com");
    (str "yaho.com", str "yahoo.com");
    (str "hotmial.com", str "hotmail.com");
    (str "outlok.com", str "outlook.com");
    (str "outloo.com", str "outlook.com") ].

Definition sldTypos : list (jsstring * jsstring) :=
  [ (str "g", str "gmail");
    (str "gm", str "gmail");
    (str "gma", str "gmail");
    (str "gmai", str "gmail");
    (str "gml", str "gmail");
    (str "gmal", str "gmail") ].

(** The table [validateForm] declares for its message. *)
Definition commonTypos : list (jsstring * jsstring) :=
  [ (str "gamil.com", str "gmail.com");
    (str "gmial.com", str "gmail.com");
    (str "gmai.com", str "gmail.com");
    (str "yahooo.com", str "yahoo.com");
    (str "yaho.com", str "yahoo.com");
    (str "hotmial.com", str "hotmail.com");
    (str "outlok.com", str "outlook.com");
    (str "outloo.com", str "outlook.com") ].

(** [validateEmail].  Once [basicRegex] has matched, [email] holds exactly
    one "@", so [domainFull] is defined ([basicRegex_split] below); the last
    branch of the [match] stands for the [TypeError] that
    [domainFull.toLowerCase()] would raise otherwise and is never taken. *)
Definition validateEmail (email : jsstring) : bool :=
  if is_empty email then true
  else if negb (test basicRegex email) then false
  else
    match split (ch "@") email with
    | local :: domainFull :: _ =>
        if is_empty local || (length (trim local) <? 2) then false
        else
          let parts := split (ch ".") (toLowerCase domainFull) in
          if length parts <? 2 then false
          else
            let tld := nth (length parts - 1) parts [] in
            let sld := nth (length parts - 2) parts [] in
            if is_empty sld || (length sld <? 2) then false
            else if truthy (get typoDomains (sld ++ str "." ++ tld))
            then false
            else if streq tld (str "com") && truthy (get sldTypos sld)
            then false
            else true
    | _ => false
    end.

(** [phone.replace(/\D/g, "")]. *)
Definition strip_non_digits (phone : jsstring) : jsstring :=
  filter is_digit phone.

(** [validatePhone]. *)
Definition validatePhone (phone : jsstring) : bool :=
  if is_empty phone then true
  else test phoneRegex phone && (10 <=? length (strip_non_digits phone)).

Definition msg_name_required : jsstring := str "Name is required".
Definition msg_name_too_long : jsstring :=
  str "Name must be less than 100 characters".
Definition msg_email_invalid : jsstring :=
  str "Please enter a valid email address".
Definition msg_phone_invalid : jsstring :=
  str "Please enter a valid phone number".

(** `Did you mean ${local}@${correction}?` *)
Definition msg_did_you_mean (local correction : jsstring) : jsstring :=
  str "Did you mean " ++ local ++ str "@" ++ correction ++ str "?".

Definition name_error (name : jsstring) : option jsstring :=
  if is_empty (trim name) then Some msg_name_required
  else if 100 <? length (trim name) then Some msg_name_too_long
  else None.

Definition email_error (email : jsstring) : option jsstring :=
  if negb (is_empty email) && negb (validateEmail email) then
    let domain := option_map toLowerCase (nth_error (split (ch "@") email) 1) in
    match domain with
    | Some d =>
        if negb (is_empty d) && truthy (get commonTypos d)
        then Some (msg_did_you_mean (nth 0 (split (ch "@") email) [])
                                    (template (get commonTypos d)))
        else Some msg_email_invalid
    | None => Some msg_email_invalid
    end
  else None.

Definition phone_error (phone : jsstring) : option jsstring :=
  if negb (is_empty phone) && negb (validatePhone phone)
  then Some msg_phone_invalid
  else None.

(** [Object.keys(newErrors).length === 0]. *)
Definition no_errors (e : FormErrors.t) : bool :=
  match FormErrors.name e, FormErrors.email e, FormErrors.phone e with
  | None, None, None => true
  | _, _, _ => false
  end.

(** [validateForm]: the errors handed to [setErrors] and the returned
    flag. *)
Definition validateForm (formData : FormData.t) : FormErrors.t * bool :=
  let newErrors :=
    FormErrors.mk (name_error (FormData.name formData))
                  (email_error (FormData.email formData))
                  (phone_error (FormData.phone formData)) in
  (newErrors, no_errors newErrors).

(** The effect that fills the form when [editContact] is set. *)
Definition populateForm (editContact : Contact.t) : FormData.t :=
  FormData.mk (Contact.name editContact)
              (or_empty (Contact.email editContact))
              (or_empty (Contact.phone editContact))
              (or_empty (Contact.avatar editContact)).

(** What [handleSubmit] hands over: [onAdd(contactData)] or
    [onEdit(editContact.id, contactData)]. *)
Inductive commit : Type :=
| OnAdd (contactData : ContactData.t)
| OnEdit (id : jsstring) (contactData : ContactData.t).

Definition payload (c : commit) : ContactData.t :=
  match c with
  | OnAdd d => d
  | OnEdit _ d => d
  end.

(** [handleSubmit]; [None] when [validateForm] blocks the submission.
    [onEdit] tells whether the optional [onEdit] callback was passed. *)
Definition handleSubmit (editContact : option Contact.t) (onEdit : bool)
    (formData : FormData.t) : option commit :=
  if snd (validateForm formData) then
    let contactData :=
      ContactData.mk (trim (FormData.name formData))
                     (or_undefined (trim (FormData.email formData)))
                     (or_undefined (trim (FormData.phone formData)))
                     (or_undefined (FormData.avatar formData)) in
    match editContact with
    | Some c =>
        if onEdit then Some (OnEdit (Contact.id c) contactData)
        else Some (OnAdd contactData)
    | None => Some (OnAdd contactData)
    end
  else None.

End Form.

(* ================================================================= *)
(** ** The mock contact store (lib/api/contacts) *)

Module Store.
Import Js.

(** The module-level [mockContacts] and its initial value. *)
Definition state : Type := list Contact.t.

Definition seed (id name email phone : String.string) : Contact.t :=
  Contact.mk (str id) (str name) (Val (str email)) (Val (str phone)) Missing.

Definition mockContacts : state :=
  [ seed "1" "Sarah Johnson" "sarah.johnson@example.com" "+1 (555) 123-4567";
    seed "2" "Michael Chen" "michael.chen@example.com" "+1 (555) 234-5678";
    seed "3" "Emily Rodriguez" "emily.rodriguez@example.com"
         "+1 (555) 345-6789";
    seed "4" "David Thompson" "david.thompson@example.com"
         "+1 (555) 456-7890";
    seed "5" "Lisa Anderson" "lisa.anderson@example.com" "+1 (555) 567-8901";
    seed "6" "James Wilson" "james.wilson@example.com" "+1 (555) 678-9012";
    seed "7" "Maria Garcia" "maria.garcia@example.com" "+1 (555) 789-0123";
    seed "8" "Robert Martinez" "robert.martinez@example.com"
         "+1 (555) 890-1234";
    seed "9" "Jennifer Lee" "jennifer.lee@example.com" "+1 (555) 901-2345";
    seed "10" "Christopher Brown" "christopher.brown@example.com"
         "+1 (555) 012-3456" ].

(** How the promise of an operation settles.  Each operation awaits its
    [delay] first and then runs to its end without another suspension
    point, so it is one transition of the store, taken when the delay has
    elapsed. *)
Inductive outcome (A : Type) : Type :=
| Resolved (value : A)
| Rejected (message : jsstring).

Arguments Resolved {A} value.
Arguments Rejected {A} message.

(** [fetchContacts]. *)
Definition fetchContacts (st : state) : outcome (list Contact.t) * state :=
  (Resolved st, st).

(** [searchContacts]. *)
Definition searchContacts (query : jsstring) (st : state)
  : outcome (list Contact.t) * state :=
  if is_empty (trim query) then (Resolved st, st)
  else
    let lowerQuery := toLowerCase query in
    (Resolved
       (filter
          (fun contact =>
             includes (toLowerCase (Contact.name contact)) lowerQuery
             || chain (Contact.email contact)
                  (fun e => includes (toLowerCase e) lowerQuery)
             || chain (Contact.phone contact) (fun p => includes p query))
          st),
     st).

(** [createContact]; [uuid] is the string [crypto.randomUUID()] returned
    to this call. *)
Definition createContact (uuid : jsstring) (contact : ContactData.t)
    (st : state) : outcome Contact.t * state :=
  let newContact :=
    Contact.mk uuid (ContactData.name contact) (ContactData.email contact)
               (ContactData.phone contact) (ContactData.avatar contact) in
  (Resolved newContact, st ++ [newContact]).

(** [Array.prototype.findIndex]; [None] is the result -1. *)
Fixpoint findIndex {A : Type} (p : A -> bool) (l : list A) : option nat :=
  match l with
  | [] => None
  | x :: l' => if p x then Some 0 else option_map S (findIndex p l')
  end.

(** [{ ...old, ...updates }]. *)
Definition merge (old : Contact.t) (updates : ContactData.t) : Contact.t :=
  Contact.mk (Contact.id old)
             (ContactData.name updates)
             (spread (Contact.email old) (ContactData.email updates))
             (spread (Contact.phone old) (ContactData.phone updates))
             (spread (Contact.avatar old) (ContactData.avatar updates)).

(** [updateContact].  [mockContacts[index]] is defined for the index
    [findIndex] returns ([findIndex_nth_error] below), so the inner [None]
    is never met. *)
Definition updateContact (id : jsstring) (updates : ContactData.t)
    (st : state) : outcome Contact.t * state :=
  match findIndex (fun c => streq (Contact.id c) id) st with
  | None => (Rejected (str "Contact not found"), st)
  | Some index =>
      match nth_error st index with
      | Some old =>
          let updatedContact := merge old updates in
          (Resolved updatedContact,
           firstn index st ++ [updatedContact] ++ skipn (index + 1) st)
      | None => (Rejected (str "Contact not found"), st)
      end
  end.

(** [deleteContact]. *)
Definition deleteContact (id : jsstring) (st : state)
  : outcome unit * state :=
  (Resolved tt, filter (fun c => negb (streq (Contact.id c) id)) st).

(** The calls a client can make, and the store after a sequence of them
    has settled one after the other. *)
Inductive request : Type :=
| Fetch
| Search (query : jsstring)
| Create (uuid : jsstring) (contact : ContactData.t)
| Update (id : jsstring) (updates : ContactData.t)
| Delete (id : jsstring).

Definition step (st : state) (r : request) : state :=
  match r with
  | Fetch => snd (fetchContacts st)
  | Search query => snd (searchContacts query st)
  | Create uuid contact => snd (createContact uuid contact st)
  | Update id updates => snd (updateContact id updates st)
  | Delete id => snd (deleteContact id st)
  end.

Definition run (requests : list request) (st : state) : state :=
  fold_left step requests st.

(** The identifiers [crypto.randomUUID()] handed out during [requests]. *)
Definition generated (requests : list request) : list jsstring :=
  flat_map (fun r => match r with Create uuid _ => [uuid] | _ => [] end)
           requests.

(** The shape of a version 4 UUID string:
    xxxxxxxx-xxxx-4xxx-Nxxx-xxxxxxxxxxxx in lower-case hexadecimal. *)
Definition is_hex (c : N) : bool := is_digit c || in_range 97 102 c.

Definition hex_group (n : nat) (s : jsstring) : bool :=
  (length s =? n) && forallb is_hex s.

Definition is_uuid (s : jsstring) : bool :=
  match split (ch "-") s with
  | [a; b; c; d; e] =>
      hex_group 8 a && hex_group 4 b && hex_group 4 c
      && startsWith c (str "4") && hex_group 4 d && hex_group 12 e
  | _ => false
  end.

End Store.

(* ================================================================= *)
(** ** The list projection (components/ContactList) *)

Module View.
Import Js.

Inductive SortOption : Type :=
| name_asc
| name_desc
| email_asc
| email_desc
| recent.

(** [filteredContacts]. *)
Definition filteredContacts (contacts : list Contact.t)
    (searchQuery : jsstring) : list Contact.t :=
  if is_empty (trim searchQuery) then contacts
  else
    let query := toLowerCase searchQuery in
    filter
      (fun contact =>
         includes (toLowerCase (Contact.name contact)) query
         || chain (Contact.email contact)
              (fun e => includes (toLowerCase e) query)
         || chain (Contact.phone contact) (fun p => includes p query))
      contacts.

(** [Array.prototype.sort] with a comparator: the sort is stable, and for
    a consistent comparator the stable sorted arrangement is unique, so
    the insertion sort below returns what the engine returns. *)
Section Sort.
Context {A : Type}.
Variable compareFn : A -> A -> Z.

Fixpoint insert (x : A) (l : list A) : list A :=
  match l with
  | [] => [x]
  | y :: l' =>
      if (0 <? compareFn x y)%Z then y :: insert x l' else x :: y :: l'
  end.

Fixpoint sort (l : list A) : list A :=
  match l with
  | [] => []
  | x :: l' => insert x (sort l')
  end.

End Sort.

Section Projection.

(** [String.prototype.localeCompare] of the host, under its default
    locale. *)
Variable localeCompare : jsstring -> jsstring -> Z.

(** [sortedContacts]. *)
Definition sortedContacts (filteredContacts : list Contact.t)
    (sortOption : SortOption) : list Contact.t :=
  let sorted := filteredContacts in
  match sortOption with
  | name_asc =>
      sort (fun a b => localeCompare (Contact.name a) (Contact.name b))
           sorted
  | name_desc =>
      sort (fun a b => localeCompare (Contact.name b) (Contact.name a))
           sorted
  | email_asc =>
      sort (fun a b =>
              let emailA := or_empty (Contact.email a) in
              let emailB := or_empty (Contact.email b) in
              localeCompare emailA emailB)
           sorted
  | email_desc =>
      sort (fun a b =>
              let emailA := or_empty (Contact.email a) in
              let emailB := or_empty (Contact.email b) in
              localeCompare emailB emailA)
           sorted
  | recent => rev sorted
  end.

(** The projection the list renders. *)
Definition project (contacts : list Contact.t) (searchQuery : jsstring)
    (sortOption : SortOption) : list Contact.t :=
  sortedContacts (filteredContacts contacts searchQuery) sortOption.

End Projection.

End View.

(* ================================================================= *)
(** ** What the list renders (components/ContactList, continued) *)

Module Listing.
Import Js.

(** [AVATAR_COLORS]. *)
Record ColorScheme : Type := mkColor {
  border : jsstring;
  gradient : jsstring
}.

Definition AVATAR_COLORS : list ColorScheme :=
  [ mkColor (str "#4F46E5") (str "linear-gradient(145deg, #4F46E5, #000)");
    mkColor (str "#10B981") (str "linear-gradient(210deg, #10B981, #000)");
    mkColor (str "#F59E0B") (str "linear-gradient(165deg, #F59E0B, #000)");
    mkColor (str "#EF4444") (str "linear-gradient(195deg, #EF4444, #000)");
    mkColor (str "#8B5CF6") (str "linear-gradient(225deg, #8B5CF6, #000)");
    mkColor (str "#06B6D4") (str "linear-gradient(135deg, #06B6D4, #000)");
    mkColor (str "#EC4899") (str "linear-gradient(180deg, #EC4899, #000)");
    mkColor (str "#F97316") (str "linear-gradient(150deg, #F97316, #000)") ].

(** [encodeURIComponent]: the characters A-Z a-z 0-9 - _ . ! ~ * ' ( )
    stay; every other code point is written as the bytes of its UTF-8
    encoding, each as % and two upper-case hexadecimal digits.  A
    surrogate that is not part of a pair makes the function throw a
    [URIError]: the result [None]. *)
Definition unreserved (c : N) : bool :=
  is_alpha c || is_digit c
  || existsb (N.eqb c) (str "-_.!~*'()").

Definition hex_digit (n : N) : N :=
  nth (N.to_nat n) (str "0123456789ABCDEF") (ch "0").

Definition percent (byte : N) : jsstring :=
  [ch "%"; hex_digit (byte / 16); hex_digit (byte mod 16)].

Definition utf8 (cp : N) : list N :=
  if N.ltb cp 0x80 then [cp]
  else if N.ltb cp 0x800 then
    [0xC0 + cp / 0x40; 0x80 + cp mod 0x40]%N
  else if N.ltb cp 0x10000 then
    [0xE0 + cp / 0x1000; 0x80 + (cp / 0x40) mod 0x40; 0x80 + cp mod 0x40]%N
  else
    [0xF0 + cp / 0x40000; 0x80 + (cp / 0x1000) mod 0x40;
     0x80 + (cp / 0x40) mod 0x40; 0x80 + cp mod 0x40]%N.

Definition unpaired (p : point) : bool :=
  match p with
  | Unit u => is_high u || is_low u
  | Pair _ _ => false
  end.

Definition encode_point (p : point) : jsstring :=
  match p with
  | Unit u => if unreserved u then [u] else flat_map percent (utf8 u)
  | Pair _ _ => flat_map percent (utf8 (value p))
  end.

Definition encodeURIComponent (s : jsstring) : option jsstring :=
  if existsb unpaired (decode s) then None
  else Some (flat_map encode_point (decode s)).

(** [s.replace(x, "")] for a one-character pattern: the first occurrence
    goes. *)
Fixpoint remove_first (x : N) (s : jsstring) : jsstring :=
  match s with
  | [] => []
  | c :: s' => if N.eqb c x then s' else c :: remove_first x s'
  end.

(** The props of a [ContactCard] that depend on the contact. *)
Record Card : Type := mkCard {
  key : jsstring;
  contact : Contact.t;
  avatarUrl : jsstring;
  borderColor : jsstring
}.

(** The body of the callback of [sortedContacts.map] in [contactCards];
    [None] when [encodeURIComponent] throws. *)
Definition contactCard (contact : Contact.t) (index : nat) : option Card :=
  let colorScheme :=
    nth (index mod length AVATAR_COLORS) AVATAR_COLORS (mkColor [] []) in
  let avatarUrl :=
    if negb (is_empty (or_empty (Contact.avatar contact)))
    then Some (or_empty (Contact.avatar contact))
    else
      match encodeURIComponent (Contact.name contact) with
      | Some name =>
          Some (str "https://ui-avatars.com/api/?name="
                ++ name
                ++ str "&size=400&background="
                ++ remove_first (ch "#") (border colorScheme)
                ++ str "&color=fff&bold=true&format=svg")
      | None => None
      end in
  match avatarUrl with
  | Some url =>
      Some (mkCard (Contact.id contact) contact url (border colorScheme))
  | None => None
  end.

(** [Array.prototype.map] with a callback that may throw: the first
    exception ends the loop. *)
Fixpoint map_indexed {A B : Type} (f : A -> nat -> option B) (index : nat)
    (l : list A) : option (list B) :=
  match l with
  | [] => Some []
  | x :: l' =>
      match f x index with
      | Some y =>
          match map_indexed f (S index) l' with
          | Some ys => Some (y :: ys)
          | None => None
          end
      | None => None
      end
  end.

(** [contactCards]. *)
Definition contactCards (sortedContacts : list Contact.t)
  : option (list Card) :=
  map_indexed contactCard 0 sortedContacts.

(** [showEmptySearch] and [showEmptyState], as truth values. *)
Definition showEmptySearch (sortedContacts : list Contact.t)
    (searchQuery : jsstring) : bool :=
  negb (is_empty (trim searchQuery)) && (length sortedContacts =? 0).

Definition showEmptyState (contacts : list Contact.t)
    (searchQuery : jsstring) (isLoading : bool) : bool :=
  is_empty (trim searchQuery) && (length contacts =? 0) && negb isLoading.

(** What the main area shows. *)
Inductive screen : Type :=
| ShowLoadingState
| ShowEmptyState
| ShowNoContactsFound (searchQuery : jsstring)
| ShowGrid (cards : list Card).

Section Render.
Variable localeCompare : jsstring -> jsstring -> Z.

(** One rendering of the component.  [contactCards] is computed in the
    body of the component, before the markup chooses what to show, so an
    exception of [encodeURIComponent] ends the rendering whatever would
    have been shown: the result [None]. *)
Definition render (isLoading : bool) (contacts : list Contact.t)
    (searchQuery : jsstring) (sortOption : View.SortOption)
  : option screen :=
  let sortedContacts :=
    View.project localeCompare contacts searchQuery sortOption in
  match contactCards sortedContacts with
  | None => None
  | Some cards =>
      Some (if isLoading then ShowLoadingState
            else if showEmptyState contacts searchQuery isLoading
            then ShowEmptyState
            else if showEmptySearch sortedContacts searchQuery
            then ShowNoContactsFound searchQuery
            else ShowGrid cards)
  end.

End Render.

End Listing.

(* ================================================================= *)
(** ** The contact card (components/ContactCard) *)

Module CardText.
Import Js.

Definition LF : N := ch "010".

(** [contact.email ? ... : ''] and the like: an optional field is truthy
    when it holds a string that is not empty. *)
Definition given (o : optional) : bool := negb (is_empty (or_empty o)).

Definition line (label : jsstring) (o : optional) : jsstring :=
  if given o then label ++ or_empty o else [].

(** The text [handleCopyContact] writes to the clipboard. *)
Definition contactText (contact : Contact.t) : jsstring :=
  trim ([LF] ++ str "Name: " ++ Contact.name contact ++ [LF]
        ++ line (str "Email: ") (Contact.email contact) ++ [LF]
        ++ line (str "Phone: ") (Contact.phone contact) ++ [LF]
        ++ str "    ").

(** [getContactVCard]. *)
Definition getContactVCard (contact : Contact.t) : jsstring :=
  str "BEGIN:VCARD" ++ [LF]
  ++ str "VERSION:3.0" ++ [LF]
  ++ str "FN:" ++ Contact.name contact ++ [LF]
  ++ line (str "EMAIL:") (Contact.email contact) ++ [LF]
  ++ line (str "TEL:") (Contact.phone contact) ++ [LF]
  ++ str "END:VCARD".

End CardText.

(* ================================================================= *)
(** ** The vocabulary of the specification *)

Module Spec.
Import Js.

(** Blank: empty or made of white space only. *)
Definition blank (s : jsstring) : Prop := Forall (fun c => is_ws c = true) s.

(** Trimmed: no white space at either end. *)
Definition trimmed (s : jsstring) : Prop :=
  (forall c s', s = c :: s' -> is_ws c = false) /\
  (forall c s', s = s' ++ [c] -> is_ws c = false).

(** [q] occurs in [s] as a contiguous run of characters. *)
Definition contains (s q : jsstring) : Prop :=
  exists before after, s = before ++ q ++ after.

(** Two strings are equal up to the case of their letters: their
    lower-case forms are the same string. *)
Definition same_ignoring_case (s t : jsstring) : Prop :=
  toLowerCase s = toLowerCase t.

(** A contact matches a query: the lower-case form of its name or of its
    email contains the lower-case form of the query, or its phone contains
    the query as it is. *)
Definition matches (query : jsstring) (c : Contact.t) : Prop :=
  contains (toLowerCase (Contact.name c)) (toLowerCase query)
  \/ (exists e, Contact.email c = Val e
                /\ contains (toLowerCase e) (toLowerCase query))
  \/ (exists p, Contact.phone c = Val p /\ contains p query).

(** How an update treats an optional property: a key that [new] carries
    overwrites, a key missing from [new] leaves the stored value. *)
Definition overwritten (old new result : optional) : Prop :=
  (new = Missing -> result = old) /\ (new <> Missing -> result = new).

(** A consistent comparator to run the projection with: shorter strings
    first. *)
Definition by_length (a b : jsstring) : Z :=
  (Z.of_nat (length a) - Z.of_nat (length b))%Z.

(** The phone characters the specification lists: a digit, the space
    character, plus, minus and the two parentheses. *)
Definition phone_allowed (c : N) : bool :=
  is_digit c || is_char (ch " ") c || is_char (ch "+") c || is_char (ch "-") c
  || is_char (ch "(") c || is_char (ch ")") c.

(** The characters of the form's phone pattern, listed. *)
Definition phone_chars : list N :=
  [ 9; 10; 11; 12; 13; 32; 40; 41; 43; 45;
    48; 49; 50; 51; 52; 53; 54; 55; 56; 57;
    160; 5760; 8192; 8193; 8194; 8195; 8196; 8197; 8198; 8199; 8200;
    8201; 8202; 8232; 8233; 8239; 8287; 12288; 65279 ]%N.

(** The lower-case form of an ASCII character: A-Z become a-z. *)
Definition ascii_lower (c : N) : N :=
  if in_range 65 90 c then (c + 32)%N else c.

Definition is_ascii (c : N) : bool := N.ltb c 128.

(** The 128 ASCII code units, listed. *)
Definition ascii_units : list N := map N.of_nat (seq 0 128).

(** A code unit whose lower-case form is the one code unit [f] gives,
    wherever it stands. *)
Definition lowers_to (f : N -> N) (c : N) : bool :=
  negb (N.eqb c 0x3A3) && negb (N.eqb c 0x130)
  && N.eqb (simple_lower c) (f c) && N.ltb (f c) 0x10000
  && negb (is_high c).

(** A pattern respects a change of characters [f] when none of its
    classes can tell a character from its image. *)
Fixpoint respects (f : N -> N) (r : regex) : Prop :=
  match r with
  | Class p => forall c, p (f c) = p c
  | Seq r1 r2 => respects f r1 /\ respects f r2
  | Alt r1 r2 => respects f r1 /\ respects f r2
  | Star r1 => respects f r1
  | _ => True
  end.

(** Two checks of the table of lower-case mappings: no image is a phone
    character, and no mapping leaves or enters the basic plane. *)
Definition image_avoids_phone (e : N * N * N * N) : bool :=
  let '(first, last, _, image) := e in
  forallb (fun v => negb (in_range image (image + (last - first)) v))
          phone_chars.

Definition keeps_plane (e : N * N * N * N) : bool :=
  let '(first, last, _, image) := e in
  N.ltb last 0x10000 || N.leb 0x10000 first && N.leb 0x10000 image.

(** Is the first code unit of [s] a low surrogate, is [prev] a high one? *)
Definition low_next (s : jsstring) : bool :=
  match s with
  | lo :: _ => is_low lo
  | [] => false
  end.

Definition high_before (prev : option N) : bool :=
  match prev with
  | Some hi => is_high hi
  | None => false
  end.

(** Some code unit of [s] is a lone surrogate: a high surrogate that no
    low one follows, or a low surrogate that no high one precedes;
    [prev] is the code unit before [s], if any. *)
Fixpoint lone_surrogate_after (prev : option N) (s : jsstring) : bool :=
  match s with
  | [] => false
  | u :: s' =>
      is_high u && negb (low_next s')
      || is_low u && negb (high_before prev)
      || lone_surrogate_after (Some u) s'
  end.

Definition lone_surrogate (s : jsstring) : bool :=
  lone_surrogate_after None s.

(** What may stand in the value of a query parameter without ending it:
    an unreserved character or the percent sign of an escape. *)
Definition url_safe (x : N) : bool :=
  Listing.unreserved x || N.eqb x (ch "%").

End Spec.

(* ================================================================= *)
(** ** Facts about the string primitives *)

Section StringFacts.
Import Js.

Lemma streq_refl (s : jsstring) : streq s s = true.
Proof.
  induction s as [|a s IH]; simpl; [reflexivity|].
  now rewrite N.eqb_refl.
Qed.

Lemma streq_eq (s t : jsstring) : streq s t = true <-> s = t.
Proof.
  split; [|intros ->; apply streq_refl].
  revert t; induction s as [|a s IH]; intros [|b t]; simpl;
    try discriminate; [reflexivity|].
  intros H; apply andb_true_iff in H as [Hab Hst].
  apply N.eqb_eq in Hab; subst b.
  now rewrite (IH _ Hst).
Qed.

Lemma streq_neq (s t : jsstring) : streq s t = false <-> s <> t.
Proof.
  rewrite <- streq_eq.
  destruct (streq s t); split; congruence.
Qed.

Lemma is_empty_nil (s : jsstring) : is_empty s = true <-> s = [].
Proof. destruct s; simpl; split; congruence. Qed.

Lemma is_empty_false (s : jsstring) : is_empty s = false <-> s <> [].
Proof. destruct s; simpl; split; congruence. Qed.

(** *** trim *)

Lemma trimStart_split (s : jsstring) :
  exists w, s = w ++ trimStart s /\ Forall (fun c => is_ws c = true) w.
Proof.
  induction s as [|c s [w [Hs Hw]]]; simpl.
  - exists []; auto.
  - destruct (is_ws c) eqn:Hc.
    + exists (c :: w); split; [simpl; congruence | constructor; assumption].
    + exists []; auto.
Qed.

Lemma trimStart_head (s : jsstring) c s' :
  trimStart s = c :: s' -> is_ws c = false.
Proof.
  induction s as [|a s IH]; simpl; [discriminate|].
  destruct (is_ws a) eqn:Ha; [exact IH|].
  intros H; injection H as <- _; exact Ha.
Qed.

Lemma trimStart_nil (s : jsstring) : trimStart s = [] <-> Spec.blank s.
Proof.
  unfold Spec.blank; induction s as [|a s IH]; simpl.
  - split; auto.
  - destruct (is_ws a) eqn:Ha.
    + rewrite IH; split; intros H; [constructor; assumption | now inversion H].
    + split; [discriminate|]. intros H; inversion H; congruence.
Qed.

Lemma trimStart_length (s : jsstring) : length (trimStart s) <= length s.
Proof.
  induction s as [|a s IH]; simpl; [lia|].
  destruct (is_ws a); simpl; lia.
Qed.

Lemma trimStart_fixed (s : jsstring) c s' :
  s = c :: s' -> is_ws c = false -> trimStart s = s.
Proof. intros -> H; simpl; now rewrite H. Qed.

Lemma blank_rev (s : jsstring) : Spec.blank (rev s) <-> Spec.blank s.
Proof.
  unfold Spec.blank; rewrite !Forall_forall.
  split; intros H c Hc; apply H; [now apply -> in_rev | now apply in_rev].
Qed.

Lemma blank_app (s t : jsstring) :
  Spec.blank (s ++ t) <-> Spec.blank s /\ Spec.blank t.
Proof. unfold Spec.blank; apply Forall_app. Qed.

Lemma trimEnd_split (s : jsstring) :
  exists w, s = trimEnd s ++ w /\ Spec.blank w.
Proof.
  unfold trimEnd.
  destruct (trimStart_split (rev s)) as [w [Hs Hw]].
  exists (rev w); split; [|now apply blank_rev].
  rewrite <- rev_app_distr, <- Hs; symmetry; apply rev_involutive.
Qed.

Lemma trimEnd_last (s : jsstring) c s' :
  trimEnd s = s' ++ [c] -> is_ws c = false.
Proof.
  unfold trimEnd; intros H.
  apply (f_equal (@rev N)) in H.
  rewrite rev_involutive, rev_app_distr in H; simpl in H.
  exact (trimStart_head _ _ _ H).
Qed.

Lemma trimEnd_nil (s : jsstring) : trimEnd s = [] <-> Spec.blank s.
Proof.
  unfold trimEnd; rewrite <- blank_rev, <- trimStart_nil.
  split; intros H; [|now rewrite H].
  apply (f_equal (@rev N)) in H; now rewrite rev_involutive in H.
Qed.

Lemma trimEnd_length (s : jsstring) : length (trimEnd s) <= length s.
Proof.
  unfold trimEnd; rewrite length_rev.
  etransitivity; [apply trimStart_length | now rewrite length_rev].
Qed.

Lemma trim_nil (s : jsstring) : trim s = [] <-> Spec.blank s.
Proof.
  unfold trim; rewrite trimEnd_nil.
  destruct (trimStart_split s) as [w [Hs Hw]].
  split; intros H.
  - rewrite Hs; apply blank_app; auto.
  - rewrite Hs in H; apply blank_app in H as [_ H].
    now rewrite <- trimStart_nil in H |- *; rewrite H.
Qed.

Lemma trim_length (s : jsstring) : length (trim s) <= length s.
Proof.
  unfold trim; etransitivity; [apply trimEnd_length | apply trimStart_length].
Qed.

Lemma trim_trimmed (s : jsstring) : Spec.trimmed (trim s).
Proof.
  unfold Spec.trimmed, trim; split; intros c s' H.
  - destruct (trimEnd_split (trimStart s)) as [w [Hs _]].
    rewrite H in Hs; simpl in Hs.
    exact (trimStart_head _ _ _ Hs).
  - exact (trimEnd_last _ _ _ H).
Qed.

Lemma trimmed_not_blank (s : jsstring) :
  Spec.trimmed s -> s <> [] -> ~ Spec.blank s.
Proof.
  intros [Hhead _] Hne Hb.
  destruct s as [|c s']; [congruence|].
  inversion Hb; subst.
  specialize (Hhead c s' eq_refl); congruence.
Qed.

Lemma is_empty_trim (s : jsstring) :
  is_empty (trim s) = true <-> Spec.blank s.
Proof. now rewrite is_empty_nil, trim_nil. Qed.

End StringFacts.

(* ================================================================= *)
(** ** The derivative matcher decides the language of a pattern *)

Section RegexFacts.
Import Js.

Lemma class_inv (p : N -> bool) (s : jsstring) :
  lang (Class p) s -> exists c, s = [c] /\ p c = true.
Proof. intros H; inversion H; subst; eauto. Qed.

Lemma seq_inv (r1 r2 : regex) (s : jsstring) :
  lang (Seq r1 r2) s -> exists s1 s2, s = s1 ++ s2 /\ lang r1 s1 /\ lang r2 s2.
Proof. intros H; inversion H; subst; eauto. Qed.

Lemma alt_inv (r1 r2 : regex) (s : jsstring) :
  lang (Alt r1 r2) s -> lang r1 s \/ lang r2 s.
Proof. intros H; inversion H; subst; auto. Qed.

Lemma nullable_lang (r : regex) : nullable r = true <-> lang r [].
Proof.
  induction r as [| |p|r1 IH1 r2 IH2|r1 IH1 r2 IH2|r IH]; simpl.
  - split; [discriminate | intros H; inversion H].
  - split; [constructor | reflexivity].
  - split; [discriminate | intros H; inversion H].
  - rewrite andb_true_iff, IH1, IH2; split.
    + intros [H1 H2]; exact (lang_seq _ _ [] [] H1 H2).
    + intros H; apply seq_inv in H as [s1 [s2 [Heq [H1 H2]]]].
      symmetry in Heq; apply app_eq_nil in Heq as [-> ->]; auto.
  - rewrite orb_true_iff, IH1, IH2; split.
    + intros [H|H]; [apply lang_alt_l | apply lang_alt_r]; exact H.
    + apply alt_inv.
  - split; [constructor | reflexivity].
Qed.

Lemma star_cons_inv (r : regex) c s :
  lang (Star r) (c :: s) ->
  exists s1 s2, s = s1 ++ s2 /\ lang r (c :: s1) /\ lang (Star r) s2.
Proof.
  intros H.
  remember (Star r) as r' eqn:Hr; remember (c :: s) as w eqn:Hw.
  revert s Hw.
  induction H as [| | | | | |r0 s1 s2 H1 _ H2 IH2]; try discriminate.
  injection Hr as ->; intros s Hw.
  destruct s1 as [|a s1]; simpl in Hw.
  - exact (IH2 eq_refl s Hw).
  - injection Hw as -> <-.
    exists s1, s2; auto.
Qed.

Lemma deriv_lang (r : regex) : forall c s,
  lang (deriv c r) s <-> lang r (c :: s).
Proof.
  induction r as [| |p|r1 IH1 r2 IH2|r1 IH1 r2 IH2|r IH]; intros c s; simpl.
  - split; intros H; inversion H.
  - split; intros H; inversion H.
  - destruct (p c) eqn:Hp; split; intros H.
    + inversion H; subst; now constructor.
    + apply class_inv in H as [a [Ha _]]; injection Ha as -> ->; constructor.
    + inversion H.
    + apply class_inv in H as [a [Ha Hpa]]; injection Ha as -> ->; congruence.
  - assert (Hseq : lang (Seq (deriv c r1) r2) s -> lang (Seq r1 r2) (c :: s)).
    { intros H; apply seq_inv in H as [s1 [s2 [-> [H1 H2]]]].
      apply IH1 in H1; exact (lang_seq _ _ (c :: s1) s2 H1 H2). }
    assert (Hinv : lang (Seq r1 r2) (c :: s) ->
                   lang (Seq (deriv c r1) r2) s \/
                   (lang r1 [] /\ lang (deriv c r2) s)).
    { intros H; apply seq_inv in H as [s1 [s2 [Heq [H1 H2]]]].
      destruct s1 as [|a s1]; simpl in Heq.
      - subst s2; right; split; [exact H1 | now apply IH2].
      - injection Heq as -> ->; left.
        apply lang_seq; [now apply IH1 | exact H2]. }
    destruct (nullable r1) eqn:Hn; split; intros H.
    + apply alt_inv in H as [H|H]; [now apply Hseq|].
      apply nullable_lang in Hn.
      apply (lang_seq _ _ [] (c :: s) Hn); now apply IH2.
    + destruct (Hinv H) as [H'|[_ H']];
        [now apply lang_alt_l | now apply lang_alt_r].
    + now apply Hseq.
    + destruct (Hinv H) as [H'|[H' _]]; [exact H'|].
      apply nullable_lang in H'; congruence.
  - split; intros H; apply alt_inv in H as [H|H].
    + apply lang_alt_l; now apply IH1.
    + apply lang_alt_r; now apply IH2.
    + apply lang_alt_l; now apply IH1.
    + apply lang_alt_r; now apply IH2.
  - split; intros H.
    + apply seq_inv in H as [s1 [s2 [-> [H1 H2]]]].
      apply IH in H1; exact (lang_star_app _ (c :: s1) s2 H1 H2).
    + apply star_cons_inv in H as [s1 [s2 [-> [H1 H2]]]].
      apply lang_seq; [now apply IH | exact H2].
Qed.

Lemma test_lang (r : regex) (s : jsstring) : test r s = true <-> lang r s.
Proof.
  revert r; induction s as [|c s IH]; intros r; simpl.
  - apply nullable_lang.
  - rewrite IH; apply deriv_lang.
Qed.

Lemma star_class (p : N -> bool) (s : jsstring) :
  lang (Star (Class p)) s <-> forallb p s = true.
Proof.
  split.
  - induction s as [|c s IH]; intros H; [reflexivity|].
    apply star_cons_inv in H as [s1 [s2 [-> [H1 H2]]]].
    apply class_inv in H1 as [a [Ha Hp]]; injection Ha as -> ->; simpl.
    apply andb_true_iff; auto.
  - induction s as [|c s IH]; simpl; intros H; [constructor|].
    apply andb_true_iff in H as [Hc Hs].
    apply (lang_star_app _ [c] s); [now constructor | auto].
Qed.

Lemma plus_class (p : N -> bool) (s : jsstring) :
  lang (Plus (Class p)) s <-> s <> [] /\ forallb p s = true.
Proof.
  unfold Plus; split.
  - intros H; apply seq_inv in H as [s1 [s2 [-> [H1 H2]]]].
    apply class_inv in H1 as [a [-> Hp]]; simpl; split; [discriminate|].
    apply andb_true_iff; split; [assumption | now apply star_class].
  - intros [Hne H]; destruct s as [|c s]; [congruence|].
    simpl in H; apply andb_true_iff in H as [Hc Hs].
    apply (lang_seq _ _ [c] s); [now constructor | now apply star_class].
Qed.

End RegexFacts.

(* ================================================================= *)
(** ** split, toLowerCase and includes *)

Section SearchFacts.
Import Js.

Lemma split_not_nil sep (s : jsstring) : split sep s <> [].
Proof.
  induction s as [|c s IH]; simpl; [discriminate|].
  destruct (N.eqb c sep); [discriminate|].
  destruct (split sep s); [congruence | discriminate].
Qed.

Lemma split_no_sep sep (s : jsstring) : ~ In sep s -> split sep s = [s].
Proof.
  induction s as [|c s IH]; simpl; intros H; [reflexivity|].
  destruct (N.eqb c sep) eqn:Hc.
  - apply N.eqb_eq in Hc; tauto.
  - rewrite IH by tauto; reflexivity.
Qed.

Lemma split_app_sep sep (l r : jsstring) :
  ~ In sep l -> split sep (l ++ sep :: r) = l :: split sep r.
Proof.
  induction l as [|c l IH]; simpl; intros H.
  - now rewrite N.eqb_refl.
  - destruct (N.eqb c sep) eqn:Hc.
    + apply N.eqb_eq in Hc; tauto.
    + rewrite IH by tauto; reflexivity.
Qed.

Lemma split_local_domain (local domain : jsstring) :
  ~ In (ch "@") local -> ~ In (ch "@") domain ->
  split (ch "@") (local ++ str "@" ++ domain) = [local; domain].
Proof.
  intros Hl Hd; change (str "@" ++ domain) with ((ch "@") :: domain).
  now rewrite split_app_sep, split_no_sep.
Qed.

Lemma startsWith_prefix (s q : jsstring) :
  startsWith s q = true <-> exists after, s = q ++ after.
Proof.
  revert s; induction q as [|b q IH]; intros s; simpl.
  - split; [intros _; now exists s | reflexivity].
  - destruct s as [|a s].
    + split; [discriminate | intros [after H]; discriminate].
    + rewrite andb_true_iff, N.eqb_eq, IH; split.
      * intros [-> [after ->]]; now exists after.
      * intros [after H]; injection H as -> ->; eauto.
Qed.

Lemma includes_contains (s q : jsstring) :
  includes s q = true <-> Spec.contains s q.
Proof.
  unfold Spec.contains; induction s as [|a s IH]; simpl.
  - rewrite orb_false_r, startsWith_prefix; split.
    + intros [after H]; now exists [], after.
    + intros [before [after H]].
      destruct before; [now exists after | discriminate].
  - rewrite orb_true_iff, startsWith_prefix, IH; split.
    + intros [[after H]|[before [after H]]].
      * now exists [], after.
      * exists (a :: before), after; simpl; congruence.
    + intros [[|b before] [after H]]; simpl in H.
      * left; now exists after.
      * right; injection H as _ ->; now exists before, after.
Qed.

Lemma chain_true (o : optional) (f : jsstring -> bool) :
  chain o f = true <-> exists s, o = Val s /\ f s = true.
Proof.
  destruct o; simpl; split; try discriminate.
  - intros [s [H _]]; discriminate.
  - intros [s [H _]]; discriminate.
  - eauto.
  - intros [s' [H Hf]]; injection H as ->; exact Hf.
Qed.

(** The predicate [searchContacts] filters with is the specification's
    notion of a match. *)
Lemma store_filter_matches (query : jsstring) (c : Contact.t) :
  includes (toLowerCase (Contact.name c)) (toLowerCase query)
  || chain (Contact.email c)
       (fun e => includes (toLowerCase e) (toLowerCase query))
  || chain (Contact.phone c) (fun p => includes p query) = true
  <-> Spec.matches query c.
Proof.
  unfold Spec.matches.
  rewrite !orb_true_iff, !chain_true, includes_contains.
  split.
  - intros [[H|[e [He H]]]|[p [Hp H]]].
    + now left.
    + right; left; exists e; split; [exact He | now apply includes_contains].
    + right; right; exists p; split; [exact Hp | now apply includes_contains].
  - intros [H|[[e [He H]]|[p [Hp H]]]].
    + left; now left.
    + left; right; exists e; split; [exact He | now apply includes_contains].
    + right; exists p; split; [exact Hp | now apply includes_contains].
Qed.

End SearchFacts.

(* ================================================================= *)
(** ** The form: validation and submission *)

Section FormFacts.
Import Js Form.

Lemma forallb_not_at (s : jsstring) :
  forallb not_ws_at s = true -> ~ In (ch "@") s.
Proof.
  rewrite forallb_forall; intros H Hin.
  specialize (H _ Hin); vm_compute in H; discriminate.
Qed.

Lemma forallb_alpha_not_at (s : jsstring) :
  forallb is_alpha s = true -> ~ In (ch "@") s.
Proof.
  rewrite forallb_forall; intros H Hin.
  specialize (H _ Hin); vm_compute in H; discriminate.
Qed.

(** What [basicRegex] accepts: local@domain.tld *)
Lemma basicRegex_shape (email : jsstring) :
  test basicRegex email = true ->
  exists local domain tld,
    email = local ++ str "@" ++ domain ++ str "." ++ tld
    /\ local <> [] /\ forallb not_ws_at local = true
    /\ domain <> [] /\ forallb not_ws_at domain = true
    /\ 2 <= length tld /\ forallb is_alpha tld = true.
Proof.
  intros H; apply test_lang in H; unfold basicRegex, AtLeast2 in H.
  apply seq_inv in H as [local [s1 [-> [Hl H]]]].
  apply seq_inv in H as [at_ [s2 [-> [Hat H]]]].
  apply seq_inv in H as [domain [s3 [-> [Hd H]]]].
  apply seq_inv in H as [dot [s4 [-> [Hdot H]]]].
  apply seq_inv in H as [t1 [s5 [-> [Ht1 H]]]].
  apply seq_inv in H as [t2 [t3 [-> [Ht2 Ht3]]]].
  apply plus_class in Hl as [Hl1 Hl2].
  apply plus_class in Hd as [Hd1 Hd2].
  apply class_inv in Hat as [a [-> Ha]].
  apply class_inv in Hdot as [b [-> Hb]].
  apply class_inv in Ht1 as [c1 [-> Hc1]].
  apply class_inv in Ht2 as [c2 [-> Hc2]].
  apply star_class in Ht3.
  apply N.eqb_eq in Ha, Hb; subst a b.
  exists local, domain, (c1 :: c2 :: t3); simpl.
  rewrite Hc1, Hc2; repeat split; auto; lia.
Qed.

(** After [basicRegex] has matched, [email.split("@")] has exactly two
    pieces, so [domainFull] is a string. *)
Lemma basicRegex_split (email : jsstring) :
  test basicRegex email = true ->
  exists local domainFull,
    split (ch "@") email = [local; domainFull]
    /\ email = local ++ str "@" ++ domainFull.
Proof.
  intros H.
  destruct (basicRegex_shape _ H)
    as [local [domain [tld [-> [_ [Hl [_ [Hd [_ Ht]]]]]]]]].
  exists local, (domain ++ str "." ++ tld); split; [|reflexivity].
  apply split_local_domain; [now apply forallb_not_at|].
  rewrite !in_app_iff; intros [Hin|[Hin|Hin]].
  - now apply (forallb_not_at domain).
  - simpl in Hin; destruct Hin as [Hin|[]]; discriminate.
  - now apply (forallb_alpha_not_at tld).
Qed.

Lemma tables_agree : commonTypos = typoDomains.
Proof. reflexivity. Qed.

Lemma blocked_by_validation (formData : FormData.t) :
  snd (validateForm formData) = false ->
  forall editContact onEdit, handleSubmit editContact onEdit formData = None.
Proof. intros H e o; unfold handleSubmit; now rewrite H. Qed.

Lemma name_error_blocks (formData : FormData.t) msg :
  FormErrors.name (fst (validateForm formData)) = Some msg ->
  snd (validateForm formData) = false.
Proof.
  unfold validateForm, no_errors; simpl; now intros ->.
Qed.

Lemma email_error_blocks (formData : FormData.t) :
  FormErrors.email (fst (validateForm formData)) <> None ->
  snd (validateForm formData) = false.
Proof.
  unfold validateForm, no_errors; simpl.
  destruct (email_error _); [|congruence].
  now destruct (name_error _).
Qed.

Lemma phone_error_blocks (formData : FormData.t) :
  FormErrors.phone (fst (validateForm formData)) <> None ->
  snd (validateForm formData) = false.
Proof.
  unfold validateForm, no_errors; simpl.
  destruct (phone_error _); [|congruence].
  destruct (name_error _); [reflexivity|].
  now destruct (email_error _).
Qed.

Lemma email_rejected_has_error (email : jsstring) :
  email <> [] -> validateEmail email = false -> email_error email <> None.
Proof.
  intros Hne Hv; unfold email_error.
  apply is_empty_false in Hne; rewrite Hne, Hv; simpl.
  destruct (option_map _ _) as [d|]; [|discriminate].
  destruct (_ && _); discriminate.
Qed.

Lemma nth_last_two {A : Type} (pre : list A) (a b d : A) :
  let l := pre ++ [a; b] in
  nth (length l - 2) l d = a /\ nth (length l - 1) l d = b.
Proof.
  simpl; rewrite length_app; simpl; split.
  - rewrite app_nth2 by lia.
    now replace (length pre + 2 - 2 - length pre) with 0 by lia.
  - rewrite app_nth2 by lia.
    now replace (length pre + 2 - 1 - length pre) with 1 by lia.
Qed.

Lemma phone_char_allowed c :
  phone_char c = Spec.phone_allowed c || is_ws c.
Proof.
  unfold phone_char, Spec.phone_allowed.
  destruct (is_char (ch " ") c) eqn:Hsp.
  - apply N.eqb_eq in Hsp; subst c; reflexivity.
  - destruct (is_digit c), (is_ws c), (is_char (ch "-") c),
      (is_char (ch "+") c), (is_char (ch "(") c), (is_char (ch ")") c);
      reflexivity.
Qed.

Lemma phoneRegex_chars (phone : jsstring) :
  test phoneRegex phone = true <->
  phone <> [] /\ forallb phone_char phone = true.
Proof. unfold phoneRegex; rewrite test_lang; apply plus_class. Qed.

End FormFacts.

(* ================================================================= *)
(** ** Facts about [toLowerCase] *)

Section LetterCase.
Import Js.

Lemma decode_cons (hi : N) (s : jsstring) :
  decode (hi :: s)
  = match s with
    | lo :: s' =>
        if is_high hi && is_low lo then Pair hi lo :: decode s'
        else Unit hi :: decode s
    | [] => [Unit hi]
    end.
Proof. destruct s; reflexivity. Qed.

Lemma decode_spec (n : nat) : forall s : jsstring,
  length s <= n ->
  flat_map units (decode s) = s /\ Forall paired (decode s).
Proof.
  induction n as [|n IH]; intros s Hn.
  - destruct s; [split; [reflexivity | constructor] | simpl in Hn; lia].
  - destruct s as [|hi s]; [split; [reflexivity | constructor]|].
    rewrite decode_cons.
    destruct s as [|lo s]; [split; [reflexivity | repeat constructor]|].
    simpl in Hn.
    destruct (is_high hi && is_low lo) eqn:Hp.
    + destruct (IH s ltac:(lia)) as [Hu Hf].
      apply andb_true_iff in Hp.
      split; [simpl; now rewrite Hu | now constructor].
    + destruct (IH (lo :: s) ltac:(simpl; lia)) as [Hu Hf].
      split; [|now constructor].
      change (hi :: flat_map units (decode (lo :: s)) = hi :: lo :: s).
      now rewrite Hu.
Qed.

Lemma decode_units (s : jsstring) : flat_map units (decode s) = s.
Proof. exact (proj1 (decode_spec (length s) s (le_n _))). Qed.

Lemma decode_paired (s : jsstring) : Forall paired (decode s).
Proof. exact (proj2 (decode_spec (length s) s (le_n _))). Qed.

Lemma phone_char_listed c : Form.phone_char c = true -> In c Spec.phone_chars.
Proof.
  unfold Form.phone_char, is_digit, is_ws, is_char, in_range.
  change (ch "-") with 45%N; change (ch "+") with 43%N.
  change (ch "(") with 40%N; change (ch ")") with 41%N.
  rewrite !orb_true_iff, !andb_true_iff, !N.leb_le, !N.eqb_eq.
  intros H; unfold Spec.phone_chars, In; lia.
Qed.

Lemma listed (f : N -> bool) (l : list N) c :
  forallb f l = true -> In c l -> f c = true.
Proof. intros H; exact (proj1 (forallb_forall f l) H c). Qed.

Lemma lowers_to_lower_point (f : N -> N) before after c :
  Spec.lowers_to f c = true -> lower_point before after (Unit c) = [f c].
Proof.
  unfold Spec.lowers_to; rewrite !andb_true_iff, !negb_true_iff.
  intros [[[[H1 H2] H3] H4] _]; unfold lower_point, units_of_code.
  apply N.eqb_eq in H3; now rewrite H1, H2, H3, H4.
Qed.

Lemma lowers_to_no_high (f : N -> N) (s : jsstring) :
  Forall (fun c => Spec.lowers_to f c = true) s ->
  Forall (fun c => is_high c = false) s.
Proof.
  apply Forall_impl; intros c Hc.
  apply andb_true_iff in Hc as [_ Hc]; now apply negb_true_iff in Hc.
Qed.

Lemma decode_no_high (s : jsstring) :
  Forall (fun c => is_high c = false) s -> decode s = map Unit s.
Proof.
  induction s as [|c s IH]; intros H; [reflexivity|].
  inversion H as [|? ? Hc Hs]; subst.
  rewrite decode_cons, Hc; simpl andb.
  destruct s; [reflexivity|]; simpl map; now rewrite (IH Hs).
Qed.

Lemma lower_points_lowers_to (f : N -> N) (s : jsstring) : forall before,
  Forall (fun c => Spec.lowers_to f c = true) s ->
  lower_points before (map Unit s) = map f s.
Proof.
  induction s as [|c s IH]; intros before H; [reflexivity|].
  inversion H as [|? ? Hc Hs]; subst.
  change (lower_point before (map Unit s) (Unit c)
          ++ lower_points (Unit c :: before) (map Unit s) = f c :: map f s).
  now rewrite (lowers_to_lower_point f), IH.
Qed.

(** A string of code units that each have a one-unit lower-case form is
    lower-cased unit by unit. *)
Lemma toLowerCase_lowers_to (f : N -> N) (s : jsstring) :
  Forall (fun c => Spec.lowers_to f c = true) s -> toLowerCase s = map f s.
Proof.
  intros H; unfold toLowerCase.
  rewrite (decode_no_high s (lowers_to_no_high f s H)).
  now apply lower_points_lowers_to.
Qed.

(** No phone character is a surrogate, a capital sigma or a capital I
    with dot, and none has a lower-case mapping. *)
Lemma phone_char_keeps_case c :
  Form.phone_char c = true -> Spec.lowers_to (fun c => c) c = true.
Proof.
  intros H; apply phone_char_listed in H.
  now apply (listed (Spec.lowers_to (fun c => c)) Spec.phone_chars).
Qed.

(** Lower-casing leaves a string of phone characters as it is. *)
Lemma toLowerCase_phone (q : jsstring) :
  forallb Form.phone_char q = true -> toLowerCase q = q.
Proof.
  rewrite forallb_forall; intros H.
  rewrite (toLowerCase_lowers_to (fun c => c)), map_id; [reflexivity|].
  apply Forall_forall; intros c Hc; apply phone_char_keeps_case; auto.
Qed.

Lemma is_ascii_listed c : Spec.is_ascii c = true -> In c Spec.ascii_units.
Proof.
  unfold Spec.is_ascii, Spec.ascii_units; intros H.
  apply in_map_iff; exists (N.to_nat c); split; [apply N2Nat.id|].
  apply in_seq; lia.
Qed.

Lemma ascii_lowers_to c :
  Spec.is_ascii c = true -> Spec.lowers_to Spec.ascii_lower c = true.
Proof.
  intros H; apply is_ascii_listed in H.
  assert (Hall : forallb (Spec.lowers_to Spec.ascii_lower) Spec.ascii_units
                 = true)
    by (vm_compute; reflexivity).
  exact (listed _ _ _ Hall H).
Qed.

(** On ASCII strings [toLowerCase] turns A-Z into a-z, one by one. *)
Lemma toLowerCase_ascii (s : jsstring) :
  forallb Spec.is_ascii s = true -> toLowerCase s = map Spec.ascii_lower s.
Proof.
  rewrite forallb_forall; intros H.
  apply toLowerCase_lowers_to, Forall_forall.
  intros c Hc; apply ascii_lowers_to; auto.
Qed.

Lemma lower_table_checked :
  forallb (fun e => Spec.image_avoids_phone e && Spec.keeps_plane e) lower_table
  = true.
Proof. vm_compute; reflexivity. Qed.

Lemma simple_lower_cases (cp : N) :
  simple_lower cp = cp
  \/ exists first last step image,
       simple_lower cp = (image + (cp - first))%N
       /\ (first <= cp <= last)%N
       /\ Spec.image_avoids_phone (first, last, step, image) = true
       /\ Spec.keeps_plane (first, last, step, image) = true.
Proof.
  unfold simple_lower.
  destruct (find (covers cp) lower_table) as [[[[first last] step] image]|]
    eqn:Hf; [right | now left].
  apply find_some in Hf as [Hin Hc].
  pose proof (proj1 (forallb_forall _ _) lower_table_checked _ Hin) as Hok.
  apply andb_true_iff in Hok as [Hphone Hplane].
  exists first, last, step, image.
  split; [reflexivity|]. split; [|split; assumption].
  unfold covers, in_range in Hc.
  rewrite !andb_true_iff, !N.leb_le in Hc; tauto.
Qed.

Lemma simple_lower_phone (cp : N) :
  Form.phone_char (simple_lower cp) = true -> simple_lower cp = cp.
Proof.
  intros H.
  destruct (simple_lower_cases cp)
    as [E|[first [last [step [image [E [Hr [Hp _]]]]]]]]; [exact E|].
  exfalso; apply phone_char_listed in H.
  unfold Spec.image_avoids_phone in Hp.
  apply (listed _ _ _ Hp) in H.
  apply negb_true_iff in H; revert H; apply not_false_iff_true.
  unfold in_range; rewrite andb_true_iff, !N.leb_le, E; lia.
Qed.

Lemma simple_lower_high (cp : N) :
  (0x10000 <= cp)%N -> (0x10000 <= simple_lower cp)%N.
Proof.
  intros H.
  destruct (simple_lower_cases cp)
    as [E|[first [last [step [image [E [Hr [_ Hp]]]]]]]]; [now rewrite E|].
  unfold Spec.keeps_plane in Hp.
  rewrite orb_true_iff, andb_true_iff, N.ltb_lt, !N.leb_le in Hp.
  rewrite E; lia.
Qed.

Lemma low_not_phone (c : N) : is_low c = true -> Form.phone_char c = false.
Proof.
  unfold is_low, in_range; rewrite andb_true_iff, !N.leb_le; intros H.
  destruct (Form.phone_char c) eqn:Hc; [exfalso | reflexivity].
  apply phone_char_listed in Hc; unfold Spec.phone_chars, In in Hc; lia.
Qed.

Lemma units_of_code_high (cp : N) :
  (0x10000 <= cp)%N ->
  exists hi lo, units_of_code cp = [hi; lo] /\ is_low lo = true.
Proof.
  intros H; unfold units_of_code.
  apply N.ltb_ge in H; rewrite H.
  eexists; eexists; split; [reflexivity|].
  unfold is_low, in_range; rewrite andb_true_iff, !N.leb_le.
  pose proof (N.mod_lt (cp - 0x10000) 0x400 ltac:(discriminate)) as Hm.
  revert Hm; generalize ((cp - 0x10000) mod 0x400)%N; intros m Hm; lia.
Qed.

Lemma units_of_code_phone (cp : N) :
  forallb Form.phone_char (units_of_code cp) = true ->
  units_of_code cp = [cp] /\ Form.phone_char cp = true.
Proof.
  destruct (N.ltb cp 0x10000) eqn:Hcp.
  - unfold units_of_code; rewrite Hcp; simpl.
    rewrite andb_true_r; auto.
  - apply N.ltb_ge in Hcp.
    destruct (units_of_code_high cp Hcp) as [hi [lo [-> Hlo]]]; simpl.
    rewrite (low_not_phone lo Hlo), andb_false_r; discriminate.
Qed.

Lemma value_paired (hi lo : N) :
  paired (Pair hi lo) -> (0x10000 <= value (Pair hi lo))%N.
Proof.
  intros _; cbv [value].
  rewrite <- N.add_assoc; apply N.le_add_r.
Qed.

(** A point whose lower-case form consists of phone characters is one
    phone character, left as it is. *)
Lemma lower_point_phone before after (p : point) :
  paired p ->
  forallb Form.phone_char (lower_point before after p) = true ->
  lower_point before after p = units p.
Proof.
  destruct p as [u|hi lo]; intros Hp; unfold lower_point.
  - destruct (N.eqb u 0x3A3);
      [destruct (final_sigma before after); vm_compute; discriminate|].
    destruct (N.eqb u 0x130); [vm_compute; discriminate|].
    intros H; apply units_of_code_phone in H as [-> H].
    now rewrite (simple_lower_phone u H).
  - intros H; apply units_of_code_phone in H as [_ H].
    pose proof (simple_lower_high _ (value_paired hi lo Hp)) as Hhigh.
    apply phone_char_listed in H; unfold Spec.phone_chars, In in H; lia.
Qed.

Lemma lower_points_phone (ps : list point) : forall before,
  Forall paired ps ->
  forallb Form.phone_char (lower_points before ps) = true ->
  lower_points before ps = flat_map units ps.
Proof.
  induction ps as [|p ps IH]; intros before Hp H; [reflexivity|].
  inversion Hp as [|? ? Hp1 Hp2]; subst.
  simpl in H |- *; rewrite forallb_app, andb_true_iff in H.
  destruct H as [H1 H2].
  now rewrite (lower_point_phone _ _ _ Hp1 H1), (IH _ Hp2 H2).
Qed.

(** A string whose lower-case form consists of phone characters is that
    lower-case form. *)
Lemma toLowerCase_phone_image (q : jsstring) :
  forallb Form.phone_char (toLowerCase q) = true -> toLowerCase q = q.
Proof.
  intros H; unfold toLowerCase in *.
  rewrite (lower_points_phone _ _ (decode_paired q) H).
  apply decode_units.
Qed.

Lemma contains_chars (s q : jsstring) c :
  Spec.contains s q -> In c q -> In c s.
Proof.
  intros [before [after ->]] Hc.
  apply in_app_iff; right; apply in_app_iff; now left.
Qed.

Lemma contains_forallb (f : N -> bool) (s q : jsstring) :
  Spec.contains s q -> forallb f s = true -> forallb f q = true.
Proof.
  rewrite !forallb_forall; intros Hc H c Hq.
  apply H, (contains_chars s q); assumption.
Qed.

(** A phone made of phone characters contains a query exactly when it
    contains the lower-case form of the query. *)
Lemma includes_phone_lower (p q : jsstring) :
  forallb Form.phone_char p = true ->
  includes p (toLowerCase q) = includes p q.
Proof.
  intros Hp.
  destruct (includes p q) eqn:Hq.
  - apply includes_contains in Hq.
    rewrite (toLowerCase_phone q (contains_forallb _ p q Hq Hp)).
    now apply includes_contains.
  - destruct (includes p (toLowerCase q)) eqn:Hl; [|reflexivity].
    apply includes_contains in Hl.
    pose proof (toLowerCase_phone_image q
                  (contains_forallb _ p _ Hl Hp)) as E.
    rewrite E in Hl; apply includes_contains in Hl; congruence.
Qed.

End LetterCase.

(* ================================================================= *)
(** ** Claims about the validation engine *)

Section ValidationClaims.
Import Js Form.

Lemma split_two_not_empty (email local domain : jsstring) more :
  split (ch "@") email = local :: domain :: more -> is_empty email = false.
Proof. destruct email; [discriminate | reflexivity]. Qed.

(** C1, as specified, fails: the last two labels of the domain of
    user@mail.gamil.com are an entry of the full-domain typo table, which
    is why [validateEmail] rejects the address (it accepts
    user@mail.gmail.com), yet the error of the form is the general one
    and proposes no correction. *)
Lemma subdomain_typo_gets_no_proposal :
  let email := str "user@mail.gamil.com" in
  split (ch ".") (toLowerCase (str "mail.gamil.com"))
  = [str "mail"; str "gamil"; str "com"]
  /\ assoc (str "gamil" ++ str "." ++ str "com") typoDomains
     = Some (str "gmail.com")
  /\ validateEmail email = false
  /\ validateEmail (str "user@mail.gmail.com") = true
  /\ FormErrors.email
       (fst (validateForm (FormData.mk (str "User") email [] [])))
     = Some msg_email_invalid
  /\ msg_email_invalid <> msg_did_you_mean (str "user") (str "gmail.com").
Proof. cbv zeta; repeat split; try reflexivity; discriminate. Qed.

(** C1, amended.  Let the email split at "@" into a local part, a
    domain and possibly more.  When the last two labels of the lower-cased
    domain, joined by a dot, are a key of the full-domain typo table,
    validation fails and the submission is blocked.  When the whole
    lower-cased domain is such a key, the email error of the form is
    "Did you mean local@canonical?", with the local part as typed and the
    canonical domain of the table. *)
Theorem typo_domain_proposes_correction :
  forall (local domain : jsstring) (more : list jsstring)
         (canonical : jsstring) (formData : FormData.t),
    split (ch "@") (FormData.email formData) = local :: domain :: more ->
    (forall labels sld tld,
        split (ch ".") (toLowerCase domain) = labels ++ [sld; tld] ->
        In (sld ++ str "." ++ tld, canonical) typoDomains ->
        validateEmail (FormData.email formData) = false
        /\ FormErrors.email (fst (validateForm formData)) <> None
        /\ snd (validateForm formData) = false
        /\ (forall editContact onEdit,
              handleSubmit editContact onEdit formData = None))
    /\ (In (toLowerCase domain, canonical) typoDomains ->
        FormErrors.email (fst (validateForm formData))
        = Some (msg_did_you_mean local canonical)).
Proof.
  intros local domain more canonical formData Hsplit.
  pose proof (split_two_not_empty _ _ _ _ Hsplit) as Hne.
  assert (Hrejected :
            forall labels sld tld,
              split (ch ".") (toLowerCase domain) = labels ++ [sld; tld] ->
              In (sld ++ str "." ++ tld, canonical) typoDomains ->
              validateEmail (FormData.email formData) = false).
  { intros labels sld tld Hparts Hin.
    unfold validateEmail; rewrite Hne, Hsplit.
    destruct (test basicRegex _); [simpl | reflexivity].
    destruct (is_empty local || _); [reflexivity|].
    rewrite Hparts.
    destruct (nth_last_two labels sld tld []) as [Hsld Htld].
    cbv zeta in Hsld, Htld; rewrite Hsld, Htld.
    destruct (length _ <? 2); [reflexivity|].
    destruct (is_empty sld || _); [reflexivity|].
    change (sld ++ str "." ++ tld) with (sld ++ (ch ".") :: tld) in Hin.
    remember (sld ++ (ch ".") :: tld) as key eqn:Hkey; clear Hkey.
    simpl in Hin.
    repeat (destruct Hin as [Hin|Hin];
            [injection Hin as <- _; reflexivity|]).
    destruct Hin. }
  split.
  - intros labels sld tld Hparts Hin.
    pose proof (Hrejected labels sld tld Hparts Hin) as Hv.
    assert (He : FormErrors.email (fst (validateForm formData)) <> None).
    { unfold validateForm; simpl.
      apply email_rejected_has_error; [now apply is_empty_false | exact Hv]. }
    assert (Hb : snd (validateForm formData) = false)
      by now apply email_error_blocks.
    repeat split; auto; now apply blocked_by_validation.
  - intros Hin.
    assert (Hv : validateEmail (FormData.email formData) = false).
    { simpl in Hin.
      repeat (destruct Hin as [Hin|Hin];
              [injection Hin as Hd <-;
               eapply (Hrejected [] _ _); [rewrite <- Hd; reflexivity|];
               simpl; auto 12|]).
      destruct Hin. }
    unfold validateForm, email_error; simpl.
    rewrite Hne, Hv, Hsplit; simpl negb; simpl andb; simpl nth_error.
    simpl nth; simpl option_map; simpl in Hin.
    repeat (destruct Hin as [Hin|Hin];
            [injection Hin as <- <-; reflexivity|]).
    destruct Hin.
Qed.

Lemma typo_domain_proposes_correction_witness :
  FormErrors.email
    (fst (validateForm
            (FormData.mk (str "User") (str "user@Gamil.com") [] [])))
  = Some (str "Did you mean user@gmail.com?")
  /\ validateEmail (str "user@mail.yaho.com") = false.
Proof.
  split.
  - refine (proj2 (typo_domain_proposes_correction
                     (str "user") (str "Gamil.com") [] (str "gmail.com")
                     (FormData.mk (str "User") (str "user@Gamil.com") [] [])
                     eq_refl) _).
    simpl; auto.
  - refine (proj1 (proj1 (typo_domain_proposes_correction
                     (str "user") (str "mail.yaho.com") [] (str "yahoo.com")
                     (FormData.mk (str "User") (str "user@mail.yaho.com")
                                  [] [])
                     eq_refl)
                   [str "mail"] (str "yaho") (str "com") eq_refl _)).
    simpl; tauto.
Defined.

(** C2, as specified, fails: in ab@X.com with the one character U+0130
    (capital I with dot above) for X, the second-level label of the
    domain is shorter than 2 characters, yet validation passes and the form
    commits the address.  The code measures the label of the lower-cased
    domain, and [toLowerCase] turns U+0130 into the two code units
    U+0069 U+0307. *)
Lemma dotted_capital_i_label_accepted :
  let sld := [304%N] in
  let email := str "ab@" ++ sld ++ str ".com" in
  let formData := FormData.mk (str "Al") email [] [] in
  split (ch "@") email = [str "ab"; sld ++ str ".com"]
  /\ split (ch ".") (sld ++ str ".com") = [sld; str "com"]
  /\ length sld < 2
  /\ split (ch ".") (toLowerCase (sld ++ str ".com"))
     = [[105%N; 775%N]; str "com"]
  /\ validateEmail email = true
  /\ FormErrors.email (fst (validateForm formData)) = None
  /\ handleSubmit None false formData
     = Some (OnAdd (ContactData.mk (str "Al") (Val email)
                                   Undefined Undefined)).
Proof.
  cbv zeta.
  split; [reflexivity|]. split; [reflexivity|]. split; [simpl; lia|].
  split; [vm_compute; reflexivity|]. split; [vm_compute; reflexivity|].
  split; vm_compute; reflexivity.
Qed.

(** C2, amended.  Let a non-empty email split at "@" into a local part, a
    domain and possibly more.  When the second-level label of the
    lower-cased domain, the label before its last one, has fewer than 2
    UTF-16 code units, validation fails, whatever the top-level label is;
    the form records an email error and blocks the submission. *)
Theorem short_second_level_label_rejected :
  forall (local domain : jsstring) (more labels : list jsstring)
         (sld tld : jsstring) (formData : FormData.t),
    split (ch "@") (FormData.email formData) = local :: domain :: more ->
    split (ch ".") (toLowerCase domain) = labels ++ [sld; tld] ->
    length sld < 2 ->
    validateEmail (FormData.email formData) = false
    /\ FormErrors.email (fst (validateForm formData)) <> None
    /\ snd (validateForm formData) = false
    /\ (forall editContact onEdit,
          handleSubmit editContact onEdit formData = None).
Proof.
  intros local domain more labels sld tld formData Hsplit Hparts Hshort.
  pose proof (split_two_not_empty _ _ _ _ Hsplit) as Hne.
  assert (Hv : validateEmail (FormData.email formData) = false).
  { unfold validateEmail; rewrite Hne, Hsplit.
    destruct (test basicRegex _); [simpl | reflexivity].
    destruct (is_empty local || _); [reflexivity|].
    rewrite Hparts.
    destruct (nth_last_two labels sld tld []) as [Hsld _].
    cbv zeta in Hsld; rewrite Hsld.
    destruct (length (labels ++ _) <? 2); [reflexivity|].
    apply Nat.ltb_lt in Hshort; rewrite Hshort, orb_true_r; reflexivity. }
  assert (He : FormErrors.email (fst (validateForm formData)) <> None).
  { unfold validateForm; simpl.
    apply email_rejected_has_error; [now apply is_empty_false | exact Hv]. }
  assert (Hb : snd (validateForm formData) = false)
    by now apply email_error_blocks.
  split; [exact Hv|]. split; [exact He|]. split; [exact Hb|].
  now apply blocked_by_validation.
Qed.

Lemma short_second_level_label_rejected_witness :
  validateEmail (str "ab@G.org") = false
  /\ validateEmail (str "ab@mail.x.museum") = false.
Proof.
  split.
  - refine (proj1
      (short_second_level_label_rejected (str "ab") (str "G.org") [] []
         (str "g") (str "org")
         (FormData.mk (str "Al") (str "ab@G.org") [] [])
         eq_refl eq_refl _)).
    simpl; lia.
  - refine (proj1
      (short_second_level_label_rejected (str "ab") (str "mail.x.museum")
         [] [str "mail"] (str "x") (str "museum")
         (FormData.mk (str "Al") (str "ab@mail.x.museum") [] [])
         eq_refl eq_refl _)).
    simpl; lia.
Defined.

End ValidationClaims.

Section NameAndPhoneClaims.
Import Js Form.

(** C3, as specified, fails: a name of 101 characters, the letter a and
    100 spaces, is longer than 100, yet the form, filled with it for an
    edit, raises no name error and commits the contact. *)
Lemma long_padded_name_accepted :
  let name := str "a" ++ repeat (ch " ") 100 in
  let editContact := Contact.mk (str "7") name Undefined Undefined Undefined in
  let formData := populateForm editContact in
  100 < length (FormData.name formData)
  /\ FormErrors.name (fst (validateForm formData)) = None
  /\ snd (validateForm formData) = true
  /\ handleSubmit (Some editContact) true formData
     = Some (OnEdit (str "7")
               (ContactData.mk (str "a") Undefined Undefined Undefined)).
Proof.
  cbv zeta; split; [vm_compute; lia|].
  vm_compute; auto.
Qed.

(** C3, amended.  A name that is blank after trimming gets the error
    "Name is required"; a name whose trimmed length exceeds 100 gets the
    error "Name must be less than 100 characters"; in both cases
    [validateForm] returns false and [handleSubmit] commits nothing. *)
Theorem name_validation :
  forall formData : FormData.t,
    let name := FormData.name formData in
    (Spec.blank name ->
       FormErrors.name (fst (validateForm formData)) = Some msg_name_required
       /\ snd (validateForm formData) = false
       /\ (forall editContact onEdit,
             handleSubmit editContact onEdit formData = None))
    /\ (100 < length (trim name) ->
          FormErrors.name (fst (validateForm formData))
          = Some msg_name_too_long
          /\ snd (validateForm formData) = false
          /\ (forall editContact onEdit,
                handleSubmit editContact onEdit formData = None)).
Proof.
  intros formData name; split; intros H.
  - assert (He : FormErrors.name (fst (validateForm formData))
                 = Some msg_name_required).
    { unfold validateForm, name_error; simpl; fold name.
      apply is_empty_trim in H; now rewrite H. }
    pose proof (name_error_blocks _ _ He) as Hb.
    repeat split; auto; now apply blocked_by_validation.
  - assert (He : FormErrors.name (fst (validateForm formData))
                 = Some msg_name_too_long).
    { unfold validateForm, name_error; simpl; fold name.
      destruct (trim name) as [|c t] eqn:Ht; [simpl in H; lia|].
      apply Nat.ltb_lt in H; now rewrite H. }
    pose proof (name_error_blocks _ _ He) as Hb.
    repeat split; auto; now apply blocked_by_validation.
Qed.

Lemma name_validation_witness :
  FormErrors.name
    (fst (validateForm (FormData.mk (str "   ") [] [] [])))
  = Some msg_name_required
  /\ FormErrors.name
       (fst (validateForm (FormData.mk (repeat (ch "a") 101) [] [] [])))
     = Some msg_name_too_long.
Proof.
  split.
  - refine (proj1 (proj1 (name_validation
                             (FormData.mk (str "   ") [] [] [])) _)).
    repeat constructor.
  - refine (proj1 (proj2 (name_validation
                             (FormData.mk (repeat (ch "a") 101) [] [] [])) _)).
    vm_compute; lia.
Defined.

(** C4, as specified, fails twice: a phone made of one space is blank and
    is rejected, and a phone holding a tab, which is neither a digit nor
    the space character nor one of + - ( ), is accepted. *)
Lemma blank_phone_rejected_tab_accepted :
  let blank_phone := str " " in
  let tabbed := str "12345" ++ [(ch "009")] ++ str "67890" in
  (Spec.blank blank_phone
   /\ FormErrors.phone
        (fst (validateForm (FormData.mk (str "Al") [] blank_phone [])))
      = Some msg_phone_invalid)
  /\ (existsb (fun c => negb (Spec.phone_allowed c)) tabbed = true
      /\ FormErrors.phone
           (fst (validateForm (FormData.mk (str "Al") [] tabbed [])))
         = None).
Proof.
  cbv zeta; repeat split; try reflexivity.
  repeat constructor.
Qed.

(** C4, amended.  The empty phone passes.  A non-empty phone is rejected,
    always with the one message "Please enter a valid phone number", when
    it holds a character that is neither a digit, a white-space character,
    nor one of + - ( ), and also when fewer than 10 of its characters are
    digits, which covers every phone made of white space only.  Every other
    phone passes. *)
Theorem phone_validation :
  forall formData : FormData.t,
    let phone := FormData.phone formData in
    let verdict := FormErrors.phone (fst (validateForm formData)) in
    let blocked :=
      snd (validateForm formData) = false
      /\ forall editContact onEdit,
           handleSubmit editContact onEdit formData = None in
    (phone = [] -> verdict = None)
    /\ (phone <> [] ->
        (exists c, In c phone
                   /\ Spec.phone_allowed c = false /\ is_ws c = false) ->
        verdict = Some msg_phone_invalid /\ blocked)
    /\ (phone <> [] -> length (strip_non_digits phone) < 10 ->
        verdict = Some msg_phone_invalid /\ blocked)
    /\ (phone <> [] ->
        (forall c, In c phone ->
                   Spec.phone_allowed c = true \/ is_ws c = true) ->
        10 <= length (strip_non_digits phone) ->
        verdict = None).
Proof.
  intros formData phone verdict blocked.
  assert (Hfail : validatePhone phone = false -> phone <> [] ->
                  verdict = Some msg_phone_invalid /\ blocked).
  { intros Hv Hne.
    assert (He : verdict = Some msg_phone_invalid).
    { unfold verdict, validateForm, phone_error; simpl; fold phone.
      apply is_empty_false in Hne; now rewrite Hne, Hv. }
    split; [exact He|].
    assert (Hb : snd (validateForm formData) = false).
    { apply phone_error_blocks; fold verdict; rewrite He; discriminate. }
    split; [exact Hb | now apply blocked_by_validation]. }
  split; [|split; [|split]].
  - intros Hnil; unfold verdict, validateForm, phone_error; simpl.
    fold phone; now rewrite Hnil.
  - intros Hne [c [Hin [Hc Hws]]]; apply Hfail; [|exact Hne]; clear Hfail.
    unfold validatePhone; apply is_empty_false in Hne; rewrite Hne.
    apply andb_false_iff; left.
    destruct (test phoneRegex phone) eqn:Ht; [|reflexivity].
    apply phoneRegex_chars in Ht as [_ Ht].
    rewrite forallb_forall in Ht; specialize (Ht _ Hin).
    rewrite phone_char_allowed, Hc, Hws in Ht; discriminate.
  - intros Hne Hd; apply Hfail; [|exact Hne]; clear Hfail.
    unfold validatePhone; apply is_empty_false in Hne; rewrite Hne.
    apply andb_false_iff; right; apply Nat.leb_gt; exact Hd.
  - intros Hne Hall Hd.
    unfold verdict, validateForm, phone_error; simpl; fold phone.
    assert (Hv : validatePhone phone = true).
    { unfold validatePhone.
      destruct (is_empty phone); [reflexivity|].
      apply andb_true_iff; split; [|now apply Nat.leb_le].
      apply phoneRegex_chars; split; [exact Hne|].
      apply forallb_forall; intros c Hin.
      rewrite phone_char_allowed; apply orb_true_iff; auto. }
    rewrite Hv; now destruct (is_empty phone).
Qed.

Lemma phone_validation_witness :
  FormErrors.phone
    (fst (validateForm (FormData.mk (str "Al") [] (str "555-CALL") [])))
  = Some msg_phone_invalid
  /\ FormErrors.phone
       (fst (validateForm (FormData.mk (str "Al") [] (str "555 1234") [])))
     = Some msg_phone_invalid
  /\ FormErrors.phone
       (fst (validateForm
               (FormData.mk (str "Al") [] (str "+1 (555) 123-4567") [])))
     = None
  /\ FormErrors.phone (fst (validateForm (FormData.mk (str "Al") [] [] [])))
     = None.
Proof.
  split; [|split; [|split]].
  - refine (proj1 (proj1 (proj2 (phone_validation
      (FormData.mk (str "Al") [] (str "555-CALL") []))) _ _)).
    + discriminate.
    + exists (ch "C"); split; [simpl; do 4 right; now left|].
      split; reflexivity.
  - refine (proj1 (proj1 (proj2 (proj2 (phone_validation
      (FormData.mk (str "Al") [] (str "555 1234") [])))) _ _)).
    + discriminate.
    + vm_compute; lia.
  - refine (proj2 (proj2 (proj2 (phone_validation
      (FormData.mk (str "Al") [] (str "+1 (555) 123-4567") []))))
      _ _ _).
    + discriminate.
    + intros c Hin; vm_compute in Hin.
      repeat (destruct Hin as [<-|Hin]; [vm_compute; auto|]).
      destruct Hin.
    + vm_compute; lia.
  - exact (proj1 (phone_validation (FormData.mk (str "Al") [] [] []))
                 eq_refl).
Defined.

End NameAndPhoneClaims.

Section PayloadClaims.
Import Js Form.

(** C10, as specified, fails for the avatar: [handleSubmit] passes the
    avatar of the form state on as it is.  Editing a contact whose avatar
    is one space, a blank string, commits that avatar again. *)
Lemma blank_avatar_committed :
  let editContact :=
    Contact.mk (str "7") (str "Al") Undefined Undefined (Val (str " ")) in
  let formData := populateForm editContact in
  Spec.blank (FormData.avatar formData)
  /\ handleSubmit (Some editContact) true formData
     = Some (OnEdit (str "7")
               (ContactData.mk (str "Al") Undefined Undefined
                               (Val (str " ")))).
Proof.
  cbv zeta; split; [repeat constructor | reflexivity].
Qed.

Lemma or_undefined_trim (raw : jsstring) :
  or_undefined (trim raw) = Undefined
  \/ (or_undefined (trim raw) = Val (trim raw)
      /\ Spec.trimmed (trim raw) /\ ~ Spec.blank (trim raw)).
Proof.
  unfold or_undefined; destruct (is_empty (trim raw)) eqn:H; [now left|].
  right; split; [reflexivity|].
  split; [apply trim_trimmed|].
  apply trimmed_not_blank; [apply trim_trimmed | now apply is_empty_false].
Qed.

(** C10, amended.  Whenever [handleSubmit] commits, as a creation or as an
    edit, the name of the payload is the trimmed name of the form, is not
    empty and has at most 100 characters; email and phone are each either
    [undefined] or the trimmed field of the form, which then is not blank;
    the avatar is either [undefined] or the avatar of the form as it is,
    which then is not empty. *)
Theorem committed_payload_well_formed :
  forall (editContact : option Contact.t) (onEdit : bool)
         (formData : FormData.t) (c : commit),
    handleSubmit editContact onEdit formData = Some c ->
    let d := payload c in
    (ContactData.name d = trim (FormData.name formData)
     /\ Spec.trimmed (ContactData.name d)
     /\ ~ Spec.blank (ContactData.name d)
     /\ length (ContactData.name d) <= 100)
    /\ (ContactData.email d = Undefined
        \/ (ContactData.email d = Val (trim (FormData.email formData))
            /\ Spec.trimmed (trim (FormData.email formData))
            /\ ~ Spec.blank (trim (FormData.email formData))))
    /\ (ContactData.phone d = Undefined
        \/ (ContactData.phone d = Val (trim (FormData.phone formData))
            /\ Spec.trimmed (trim (FormData.phone formData))
            /\ ~ Spec.blank (trim (FormData.phone formData))))
    /\ (ContactData.avatar d = Undefined
        \/ (ContactData.avatar d = Val (FormData.avatar formData)
            /\ FormData.avatar formData <> [])).
Proof.
  intros editContact onEdit formData c H d.
  unfold handleSubmit in H.
  destruct (snd (validateForm formData)) eqn:Hv; [|discriminate].
  assert (Hd : d = ContactData.mk
                     (trim (FormData.name formData))
                     (or_undefined (trim (FormData.email formData)))
                     (or_undefined (trim (FormData.phone formData)))
                     (or_undefined (FormData.avatar formData))).
  { unfold d; destruct editContact as [e|]; [destruct onEdit|];
      injection H as <-; reflexivity. }
  rewrite Hd; simpl; clear Hd H.
  unfold validateForm, no_errors in Hv; simpl in Hv.
  destruct (name_error (FormData.name formData)) eqn:Hn; [discriminate|].
  clear Hv; unfold name_error in Hn.
  destruct (is_empty (trim (FormData.name formData))) eqn:He;
    [discriminate|].
  destruct (100 <? length (trim (FormData.name formData))) eqn:Hlen;
    [discriminate|].
  apply is_empty_false in He; apply Nat.ltb_ge in Hlen.
  split; [|split; [|split]].
  - repeat split; try apply trim_trimmed; auto.
    apply trimmed_not_blank; [apply trim_trimmed | exact He].
  - apply or_undefined_trim.
  - apply or_undefined_trim.
  - unfold or_undefined.
    destruct (is_empty (FormData.avatar formData)) eqn:Ha; [now left|].
    right; split; [reflexivity | now apply is_empty_false].
Qed.

Lemma committed_payload_well_formed_witness :
  let formData :=
    FormData.mk (str " Ada Lovelace ") (str "ada@example.com")
                (str " +44 20 7946 0958 ") [] in
  ContactData.name
    (payload (OnAdd (ContactData.mk (str "Ada Lovelace")
                       (Val (str "ada@example.com"))
                       (Val (str "+44 20 7946 0958")) Undefined)))
  = trim (FormData.name formData).
Proof.
  exact (proj1 (proj1 (committed_payload_well_formed None false
    (FormData.mk (str " Ada Lovelace ") (str "ada@example.com")
                 (str " +44 20 7946 0958 ") [])
    _ eq_refl))).
Defined.

End PayloadClaims.

(* ================================================================= *)
(** ** Facts about the store *)

Section StoreFacts.
Import Js Store.

Lemma findIndex_none {A : Type} (p : A -> bool) (l : list A) :
  findIndex p l = None <-> forall x, In x l -> p x = false.
Proof.
  induction l as [|a l IH]; simpl.
  - split; [intros _ x [] | reflexivity].
  - destruct (p a) eqn:Ha.
    + split; [discriminate|]. intros H; specialize (H a (or_introl eq_refl)).
      congruence.
    + destruct (findIndex p l) as [i|]; simpl.
      * split; [discriminate|]. intros H.
        assert (E : Some i = None) by (apply IH; intros x Hx; apply H; now right).
        discriminate.
      * split; [|reflexivity]. intros _ x [<-|Hx]; [exact Ha|].
        now apply (proj1 IH).
Qed.

Lemma findIndex_some {A : Type} (p : A -> bool) (l : list A) (i : nat) :
  findIndex p l = Some i ->
  exists before x after,
    l = before ++ x :: after /\ length before = i /\ p x = true
    /\ forall y, In y before -> p y = false.
Proof.
  revert i; induction l as [|a l IH]; simpl; intros i H; [discriminate|].
  destruct (p a) eqn:Ha.
  - injection H as <-; exists [], a, l; repeat split; auto.
    intros y [].
  - destruct (findIndex p l) as [j|]; simpl in H; [|discriminate].
    injection H as <-.
    destruct (IH j eq_refl) as [before [x [after [-> [Hlen [Hx Hb]]]]]].
    exists (a :: before), x, after; simpl; repeat split; auto.
    intros y [<-|Hy]; auto.
Qed.

(** [mockContacts[index]] is defined at the index [findIndex] returns. *)
Lemma findIndex_nth_error {A : Type} (p : A -> bool) (l : list A) i :
  findIndex p l = Some i -> exists x, nth_error l i = Some x /\ p x = true.
Proof.
  intros H.
  destruct (findIndex_some _ _ _ H) as [before [x [after [-> [<- [Hx _]]]]]].
  exists x; split; [|exact Hx].
  now rewrite nth_error_app2, Nat.sub_diag by lia.
Qed.

Lemma id_absent (id : jsstring) (st : state) :
  ~ In id (map Contact.id st) <->
  forall c, In c st -> streq (Contact.id c) id = false.
Proof.
  rewrite in_map_iff; split.
  - intros H c Hc; apply streq_neq; intros E; apply H; eauto.
  - intros H [c [E Hc]]; specialize (H c Hc).
    apply streq_neq in H; contradiction.
Qed.

Lemma updateContact_absent id updates (st : state) :
  ~ In id (map Contact.id st) ->
  updateContact id updates st = (Rejected (str "Contact not found"), st).
Proof.
  intros H; unfold updateContact.
  pose proof (proj1 (id_absent id st) H) as Hall.
  apply (proj2 (findIndex_none _ _)) in Hall; now rewrite Hall.
Qed.

Lemma updateContact_present id updates (st : state) :
  In id (map Contact.id st) ->
  exists before old after,
    st = before ++ old :: after
    /\ ~ In id (map Contact.id before)
    /\ Contact.id old = id
    /\ updateContact id updates st
       = (Resolved (merge old updates),
          before ++ merge old updates :: after).
Proof.
  intros H; unfold updateContact.
  destruct (findIndex (fun c => streq (Contact.id c) id) st) as [i|] eqn:Hi.
  - destruct (findIndex_some _ _ _ Hi)
      as [before [old [after [-> [<- [Hold Hb]]]]]].
    exists before, old, after.
    split; [reflexivity|]. split; [|split].
    + exact (proj2 (id_absent id before) Hb).
    + now apply streq_eq.
    + rewrite nth_error_app2, Nat.sub_diag by lia; simpl.
      rewrite firstn_app, Nat.sub_diag, firstn_all; simpl.
      rewrite app_nil_r, skipn_app, skipn_all2 by lia.
      replace (length before + 1 - length before) with 1 by lia.
      reflexivity.
  - exfalso; revert H; apply (proj2 (id_absent id st)).
    exact (proj1 (findIndex_none _ _) Hi).
Qed.

Lemma updateContact_ids id updates (st : state) :
  map Contact.id (snd (updateContact id updates st)) = map Contact.id st.
Proof.
  destruct (in_dec (list_eq_dec N.eq_dec) id (map Contact.id st)) as [H|H].
  - destruct (updateContact_present id updates st H)
      as [before [old [after [-> [_ [_ ->]]]]]].
    simpl; now rewrite !map_app.
  - now rewrite updateContact_absent.
Qed.



Lemma seed_ids_not_uuid (x : jsstring) :
  In x (map Contact.id mockContacts) -> is_uuid x = false.
Proof.
  simpl; intros H.
  repeat (destruct H as [<-|H]; [reflexivity|]).
  destruct H.
Qed.

End StoreFacts.

(* ================================================================= *)
(** ** Claims about the store *)

Section StoreClaims.
Import Js Store.

(** C5, as specified, fails: updating the seeded contact 1 with an object
    that carries a name only does not replace its email and phone; the
    record keeps the old ones. *)
Lemma update_keeps_fields_not_supplied :
  let updates := ContactData.mk (str "Sarah J") Missing Missing Missing in
  ContactData.email updates = Missing
  /\ fst (updateContact (str "1") updates mockContacts)
     = Resolved (Contact.mk (str "1") (str "Sarah J")
                   (Val (str "sarah.johnson@example.com"))
                   (Val (str "+1 (555) 123-4567")) Missing).
Proof. cbv zeta; split; reflexivity. Qed.

(** C5, amended.  When no record has the identifier, [updateContact]
    rejects with "Contact not found" and the collection stays as it was.
    When a record has it, the first such record is replaced, at its own
    position, by the record returned; that record keeps the identifier,
    takes the name of [updates], takes every optional field whose key
    [updates] carries (be it with the value [undefined]) and keeps the
    stored value of every optional field whose key is missing from
    [updates]. *)
Theorem update_contact :
  forall (id : jsstring) (updates : ContactData.t) (st : state),
    (~ In id (map Contact.id st) ->
       updateContact id updates st
       = (Rejected (str "Contact not found"), st))
    /\ (In id (map Contact.id st) ->
        exists before old after updated,
          st = before ++ old :: after
          /\ ~ In id (map Contact.id before)
          /\ Contact.id old = id
          /\ updateContact id updates st
             = (Resolved updated, before ++ updated :: after)
          /\ Contact.id updated = id
          /\ Contact.name updated = ContactData.name updates
          /\ Spec.overwritten (Contact.email old)
               (ContactData.email updates) (Contact.email updated)
          /\ Spec.overwritten (Contact.phone old)
               (ContactData.phone updates) (Contact.phone updated)
          /\ Spec.overwritten (Contact.avatar old)
               (ContactData.avatar updates) (Contact.avatar updated)).
Proof.
  intros id updates st; split; [apply updateContact_absent|].
  intros H.
  destruct (updateContact_present id updates st H)
    as [before [old [after [Hst [Hb [Hid Hu]]]]]].
  exists before, old, after, (merge old updates).
  assert (Hspread : forall o n, Spec.overwritten o n (spread o n)).
  { intros o n; unfold Spec.overwritten; destruct n; simpl;
      split; congruence. }
  repeat split; auto; apply Hspread.
Qed.

Lemma update_contact_witness :
  updateContact (str "11")
    (ContactData.mk (str "Nobody") Undefined Undefined Undefined)
    mockContacts
  = (Rejected (str "Contact not found"), mockContacts)
  /\ exists before old after updated,
       mockContacts = before ++ old :: after
       /\ fst (updateContact (str "2")
                 (ContactData.mk (str "M. Chen") Undefined Missing Missing)
                 mockContacts) = Resolved updated
       /\ Contact.email updated = Undefined.
Proof.
  split.
  - refine (proj1 (update_contact (str "11") _ mockContacts) _).
    vm_compute; intuition discriminate.
  - destruct (proj2 (update_contact (str "2")
                 (ContactData.mk (str "M. Chen") Undefined Missing Missing)
                 mockContacts))
      as [before [old [after [updated
            [Hst [_ [_ [Hu [_ [_ [[_ He] _]]]]]]]]]]].
    + vm_compute; auto.
    + exists before, old, after, updated.
      split; [exact Hst|]. split; [now rewrite Hu|].
      apply He; discriminate.
Defined.

(** C6.  [deleteContact] always resolves; afterwards the collection holds,
    in their old order, exactly the records with another identifier; when
    no record has the identifier the collection is unchanged; and deleting
    the same identifier again resolves and changes nothing. *)
Theorem delete_contact :
  forall (id : jsstring) (st : state),
    let st' := snd (deleteContact id st) in
    fst (deleteContact id st) = Resolved tt
    /\ (exists keep,
          st' = filter keep st
          /\ forall c, keep c = true <-> Contact.id c <> id)
    /\ (forall c, In c st' <-> In c st /\ Contact.id c <> id)
    /\ (forall before c after,
          st = before ++ c :: after -> Contact.id c = id ->
          ~ In id (map Contact.id before) ->
          ~ In id (map Contact.id after) ->
          st' = before ++ after)
    /\ (~ In id (map Contact.id st) -> st' = st)
    /\ deleteContact id st' = (Resolved tt, st').
Proof.
  intros id st st'; unfold st', deleteContact; simpl.
  set (keep := fun c : Contact.t => negb (streq (Contact.id c) id)).
  assert (Hkeep : forall c, keep c = true <-> Contact.id c <> id).
  { intros c; unfold keep.
    rewrite negb_true_iff; apply streq_neq. }
  assert (Hall : forall l, ~ In id (map Contact.id l) -> filter keep l = l).
  { intros l Hl; apply forallb_filter_id, forallb_forall; intros c Hc.
    apply Hkeep; intros E; apply Hl, in_map_iff; eauto. }
  split; [reflexivity|].
  split; [exists keep; auto|].
  split; [intros c; rewrite filter_In, Hkeep; tauto|].
  split; [|split].
  - intros before c after -> Hc Hb Ha.
    rewrite filter_app; simpl.
    destruct (keep c) eqn:Hk; [apply Hkeep in Hk; contradiction|].
    now rewrite !Hall.
  - exact (Hall st).
  - rewrite Hall; [reflexivity|].
    rewrite in_map_iff; intros [c [E Hc]].
    apply filter_In in Hc as [_ Hc]; apply Hkeep in Hc; contradiction.
Qed.

Lemma delete_contact_witness :
  map Contact.id (snd (deleteContact (str "3") mockContacts))
  = map str ["1"; "2"; "4"; "5"; "6"; "7"; "8"; "9"; "10"]
  /\ snd (deleteContact (str "11") mockContacts) = mockContacts.
Proof.
  destruct (delete_contact (str "3") mockContacts)
    as [_ [_ [_ [Hone _]]]].
  destruct (delete_contact (str "11") mockContacts)
    as [_ [_ [_ [_ [Hnone _]]]]].
  split.
  - rewrite (Hone (firstn 2 mockContacts) (nth 2 mockContacts
               (seed "" "" "" "")) (skipn 3 mockContacts));
      try reflexivity; vm_compute; intuition discriminate.
  - apply Hnone; vm_compute; intuition discriminate.
Defined.

End StoreClaims.

Section CreateAndSearchClaims.
Import Js Store.




(** C8, as specified, fails: the name of the contact holds the query, the
    two Greek capitals alpha and sigma, as a substring, letter for letter,
    yet the search does not return the contact.  [toLowerCase] writes the
    sigma that ends the query as a final sigma (U+03C2) and the sigma
    inside the name as U+03C3, so the lower-case name does not contain the
    lower-case query. *)
Lemma final_sigma_substring_missed :
  let name := [913; 931; 913]%N in
  let query := [913; 931]%N in
  let contact := Contact.mk (str "11") name Missing Missing Missing in
  Spec.contains name query
  /\ ~ Spec.blank query
  /\ toLowerCase name = [945; 963; 945]%N
  /\ toLowerCase query = [945; 962]%N
  /\ fst (searchContacts query [contact]) = Resolved [].
Proof.
  cbv zeta.
  split; [exists [], [913%N]; reflexivity|].
  split; [intros Hb; inversion Hb; discriminate|].
  split; [vm_compute; reflexivity|].
  split; vm_compute; reflexivity.
Qed.

(** C8, amended.  [searchContacts] leaves the store as it is.  For a blank
    query it resolves with the whole collection.  For any other query it
    resolves with the collection filtered, order kept, down to exactly
    the contacts whose lower-case name or lower-case email contains the
    lower-case query, or whose phone contains the query as it is.  Lower
    case is what [toLowerCase] returns for the whole text: for a text of
    ASCII characters, the text with a-z in the place of A-Z. *)
Theorem search_contacts :
  (forall (query : jsstring) (st : state),
      snd (searchContacts query st) = st
      /\ (Spec.blank query -> fst (searchContacts query st) = Resolved st)
      /\ (~ Spec.blank query ->
          exists keep,
            fst (searchContacts query st) = Resolved (filter keep st)
            /\ (forall c, keep c = true <-> Spec.matches query c)
            /\ (forall c, In c (filter keep st) <->
                          In c st /\ Spec.matches query c)))
  /\ (forall text : jsstring,
         forallb Spec.is_ascii text = true ->
         toLowerCase text = map Spec.ascii_lower text).
Proof.
  split; [|exact toLowerCase_ascii].
  intros query st; unfold searchContacts.
  destruct (is_empty (trim query)) eqn:Hq.
  - apply is_empty_trim in Hq.
    split; [reflexivity|]. split; [reflexivity | contradiction].
  - split; [reflexivity|]. split.
    + intros Hb; apply is_empty_trim in Hb; congruence.
    + intros _; eexists; split; [reflexivity|].
      split; [intros c; apply store_filter_matches|].
      intros c; rewrite filter_In, store_filter_matches; tauto.
Qed.

Lemma search_contacts_witness :
  let sarah :=
    seed "1" "Sarah Johnson" "sarah.johnson@example.com"
         "+1 (555) 123-4567" in
  let michael :=
    seed "2" "Michael Chen" "michael.chen@example.com"
         "+1 (555) 234-5678" in
  fst (searchContacts (str "   ") mockContacts) = Resolved mockContacts
  /\ toLowerCase (str "CHEN") = str "chen"
  /\ exists keep,
       fst (searchContacts (str "CHEN") mockContacts)
       = Resolved (filter keep mockContacts)
       /\ keep michael = true /\ keep sarah = false.
Proof.
  cbv zeta; split; [|split].
  - refine (proj1 (proj2 (proj1 search_contacts (str "   ") mockContacts))
                  _).
    repeat constructor.
  - exact (proj2 search_contacts (str "CHEN") eq_refl).
  - destruct (proj2 (proj2 (proj1 search_contacts (str "CHEN")
                              mockContacts)))
      as [keep [Hk [Hkeep _]]].
    + intros Hb; inversion Hb; discriminate.
    + exists keep; split; [exact Hk|]. split.
      * apply Hkeep; left.
        exists (str "michael "), []; vm_compute; reflexivity.
      * apply not_true_iff_false; intros H; apply Hkeep in H.
        apply store_filter_matches in H; vm_compute in H; discriminate.
Defined.

(** The scenario of the specification: among the seeded contacts, and in
    a store holding only Sarah Johnson and Michael Chen, the query "chen",
    in either case, finds exactly the record of Michael Chen. *)
Lemma search_chen :
  let sarah :=
    seed "1" "Sarah Johnson" "sarah.johnson@example.com"
         "+1 (555) 123-4567" in
  let michael :=
    seed "2" "Michael Chen" "michael.chen@example.com"
         "+1 (555) 234-5678" in
  fst (searchContacts (str "chen") [sarah; michael]) = Resolved [michael]
  /\ fst (searchContacts (str "chen") mockContacts) = Resolved [michael]
  /\ fst (searchContacts (str "CHEN") mockContacts) = Resolved [michael].
Proof. cbv zeta; split; [|split]; vm_compute; reflexivity. Qed.

End CreateAndSearchClaims.

(* ================================================================= *)
(** ** Sorting with a comparator *)

Section SortFacts.
Context {A : Type}.
Variable compareFn : A -> A -> Z.

(** A consistent comparator: opposite arguments give opposite verdicts,
    and "not after" is transitive. *)
Hypothesis compare_opposite :
  forall a b, (0 < compareFn a b)%Z -> (compareFn b a <= 0)%Z.
Hypothesis compare_transitive :
  forall a b c,
    (compareFn a b <= 0)%Z -> (compareFn b c <= 0)%Z ->
    (compareFn a c <= 0)%Z.

Let not_after (a b : A) : Prop := (compareFn a b <= 0)%Z.

Lemma insert_permutation (x : A) (l : list A) :
  Permutation (x :: l) (View.insert compareFn x l).
Proof.
  induction l as [|y l IH]; simpl; [reflexivity|].
  destruct (0 <? compareFn x y)%Z; [|reflexivity].
  rewrite perm_swap; now apply perm_skip.
Qed.

Lemma sort_permutation (l : list A) :
  Permutation l (View.sort compareFn l).
Proof.
  induction l as [|x l IH]; simpl; [reflexivity|].
  rewrite <- insert_permutation; now apply perm_skip.
Qed.

Lemma insert_sorted (x : A) (l : list A) :
  StronglySorted not_after l ->
  StronglySorted not_after (View.insert compareFn x l).
Proof.
  induction l as [|y l IH]; simpl; intros Hs.
  - repeat constructor.
  - inversion Hs as [|? ? Hl Hy]; subst.
    destruct (0 <? compareFn x y)%Z eqn:Hxy.
    + apply Z.ltb_lt in Hxy.
      constructor; [now apply IH|].
      apply (Permutation_Forall (insert_permutation x l)).
      constructor; [now apply compare_opposite | exact Hy].
    + apply Z.ltb_ge in Hxy.
      constructor; [exact Hs|].
      constructor; [exact Hxy|].
      rewrite Forall_forall in Hy |- *; intros z Hz.
      exact (compare_transitive x y z Hxy (Hy z Hz)).
Qed.

Lemma sort_sorted (l : list A) :
  StronglySorted not_after (View.sort compareFn l).
Proof.
  induction l as [|x l IH]; simpl; [constructor | now apply insert_sorted].
Qed.

End SortFacts.

(* ================================================================= *)
(** ** Claims about the list projection *)

Section ProjectionClaims.
Import Js View.

Lemma filter_none {A : Type} (p : A -> bool) (l : list A) :
  (forall x, In x l -> p x = false) -> filter p l = [].
Proof.
  induction l as [|a l IH]; simpl; intros H; [reflexivity|].
  rewrite (H a) by now left.
  apply IH; intros x Hx; apply H; now right.
Qed.

(** The filter of the view agrees with the filter of the store on a
    contact whose phone, if it has one, is made of phone characters. *)
Lemma view_filter_store_filter (query : jsstring) (c : Contact.t) :
  (forall p, Contact.phone c = Val p -> forallb Form.phone_char p = true) ->
  includes (toLowerCase (Contact.name c)) (toLowerCase query)
  || chain (Contact.email c)
       (fun e => includes (toLowerCase e) (toLowerCase query))
  || chain (Contact.phone c) (fun p => includes p (toLowerCase query))
  = includes (toLowerCase (Contact.name c)) (toLowerCase query)
    || chain (Contact.email c)
         (fun e => includes (toLowerCase e) (toLowerCase query))
    || chain (Contact.phone c) (fun p => includes p query).
Proof.
  intros Hp; f_equal.
  destruct (Contact.phone c) as [| |p]; simpl; try reflexivity.
  now apply includes_phone_lower, Hp.
Qed.

(** C9, as specified, fails: a query of two spaces occurs in no name, email
    or phone of the seeded contacts, so it matches no contact, yet, being
    blank, it projects to all ten of them. *)
Lemma unmatched_query_projects_contacts :
  (forall c, In c Store.mockContacts -> ~ Spec.matches (str "  ") c)
  /\ project (fun _ _ => 0%Z) Store.mockContacts (str "  ") recent
     = rev Store.mockContacts
  /\ project (fun _ _ => 0%Z) Store.mockContacts (str "  ") recent <> [].
Proof.
  split; [|split; [reflexivity | discriminate]].
  intros c Hin Hm; apply store_filter_matches in Hm.
  simpl in Hin.
  repeat (destruct Hin as [<-|Hin]; [vm_compute in Hm; discriminate|]).
  destruct Hin.
Qed.

(** C9, amended.  With a consistent comparator for [localeCompare],
    projecting with a blank query and the key name-asc returns a
    rearrangement of all the contacts in which no contact comes before one
    whose name [localeCompare] puts ahead of its own.  For a query that is
    not blank and matches no contact, the projection is empty under every
    sort key, in a list whose phones are made of the characters the phone
    pattern of the form allows. *)
Theorem project_contacts :
  forall (localeCompare : jsstring -> jsstring -> Z),
    (forall a b, (0 < localeCompare a b)%Z -> (localeCompare b a <= 0)%Z) ->
    (forall a b c,
        (localeCompare a b <= 0)%Z -> (localeCompare b c <= 0)%Z ->
        (localeCompare a c <= 0)%Z) ->
    forall (contacts : list Contact.t) (query : jsstring),
      (Spec.blank query ->
         Permutation contacts (project localeCompare contacts query name_asc)
         /\ StronglySorted
              (fun a b =>
                 (localeCompare (Contact.name a) (Contact.name b) <= 0)%Z)
              (project localeCompare contacts query name_asc))
      /\ (~ Spec.blank query ->
          (forall c p, In c contacts -> Contact.phone c = Val p ->
                       forallb Form.phone_char p = true) ->
          (forall c, In c contacts -> ~ Spec.matches query c) ->
          forall sortOption,
            project localeCompare contacts query sortOption = []).
Proof.
  intros localeCompare Hopp Htrans contacts query; split.
  - intros Hb; unfold project, filteredContacts.
    apply is_empty_trim in Hb; rewrite Hb; simpl.
    split; [apply sort_permutation|].
    apply (sort_sorted
             (fun a b => localeCompare (Contact.name a) (Contact.name b))).
    + intros a b; apply Hopp.
    + intros a b c; apply Htrans.
  - intros Hnb Hphones Hnone sortOption; unfold project, filteredContacts.
    destruct (is_empty (trim query)) eqn:Hq;
      [apply is_empty_trim in Hq; contradiction|].
    rewrite filter_none; [now destruct sortOption|].
    intros c Hc; specialize (Hnone c Hc).
    rewrite (view_filter_store_filter query c (fun p => Hphones c p Hc)).
    destruct (_ || _) eqn:Hm; [|reflexivity].
    apply store_filter_matches in Hm; contradiction.
Qed.

Lemma project_contacts_witness :
  map Contact.name
      (project Spec.by_length (firstn 3 Store.mockContacts) (str " ") name_asc)
  = map str ["Michael Chen"; "Sarah Johnson"; "Emily Rodriguez"]
  /\ StronglySorted
       (fun a b => (Spec.by_length (Contact.name a) (Contact.name b) <= 0)%Z)
       (project Spec.by_length (firstn 3 Store.mockContacts) (str " ") name_asc)
  /\ project Spec.by_length Store.mockContacts (str "xyz-no-match") email_desc
     = [].
Proof.
  assert (H1 : forall a b, (0 < Spec.by_length a b)%Z -> (Spec.by_length b a <= 0)%Z)
    by (unfold Spec.by_length; intros; lia).
  assert (H2 : forall a b c, (Spec.by_length a b <= 0)%Z ->
                             (Spec.by_length b c <= 0)%Z ->
                             (Spec.by_length a c <= 0)%Z)
    by (unfold Spec.by_length; intros; lia).
  split; [reflexivity|]. split.
  - refine (proj2 (proj1 (project_contacts Spec.by_length H1 H2
                            (firstn 3 Store.mockContacts) (str " ")) _)).
    repeat constructor.
  - refine (proj2 (project_contacts Spec.by_length H1 H2
                     Store.mockContacts (str "xyz-no-match")) _ _ _ email_desc).
    + intros Hb; inversion Hb; discriminate.
    + intros c p Hin Hp; simpl in Hin.
      repeat (destruct Hin as [<-|Hin];
              [injection Hp as <-; vm_compute; reflexivity|]).
      destruct Hin.
    + intros c Hin Hm; apply store_filter_matches in Hm.
      simpl in Hin.
      repeat (destruct Hin as [<-|Hin]; [vm_compute in Hm; discriminate|]).
      destruct Hin.
Defined.

End ProjectionClaims.

(* ================================================================= *)
(** ** More about the form *)

Section FormExtras.
Import Js Form.

Lemma split_app_last sep (d t : jsstring) :
  ~ In sep t -> split sep (d ++ sep :: t) = split sep d ++ [t].
Proof.
  intros Ht; induction d as [|c d IH]; simpl.
  - now rewrite N.eqb_refl, split_no_sep.
  - destruct (N.eqb c sep); [now rewrite IH|].
    rewrite IH.
    destruct (split sep d) as [|piece pieces] eqn:Hd; [|reflexivity].
    now apply split_not_nil in Hd.
Qed.

Lemma trimmed_fixed (s : jsstring) : Spec.trimmed s -> trim s = s.
Proof.
  intros [Hhead Hlast]; destruct s as [|c s']; [reflexivity|].
  unfold trim.
  rewrite (trimStart_fixed _ c s' eq_refl (Hhead c s' eq_refl)).
  unfold trimEnd.
  destruct (exists_last (l := c :: s')) as [s'' [z Hz]]; [discriminate|].
  rewrite Hz, rev_app_distr; simpl.
  rewrite (Hlast z s'' Hz); simpl.
  now rewrite rev_involutive.
Qed.

Lemma trim_idempotent (s : jsstring) : trim (trim s) = trim s.
Proof. apply trimmed_fixed, trim_trimmed. Qed.

Lemma no_ws_trimmed (s : jsstring) :
  Forall (fun c => is_ws c = false) s -> Spec.trimmed s.
Proof.
  intros H; rewrite Forall_forall in H; split; intros c s' ->; apply H.
  - now left.
  - apply in_app_iff; right; now left.
Qed.

Lemma trim_decompose (s : jsstring) :
  exists w1 w2, s = w1 ++ trim s ++ w2 /\ Spec.blank w1 /\ Spec.blank w2.
Proof.
  destruct (trimStart_split s) as [w1 [Hs Hw1]].
  destruct (trimEnd_split (trimStart s)) as [w2 [Ht Hw2]].
  exists w1, w2; unfold trim; rewrite <- Ht; auto.
Qed.

Lemma not_ws_at_no_ws (s : jsstring) :
  forallb not_ws_at s = true -> Forall (fun c => is_ws c = false) s.
Proof.
  rewrite forallb_forall, Forall_forall; intros H c Hc.
  specialize (H c Hc); unfold not_ws_at in H.
  apply negb_true_iff, orb_false_iff in H; tauto.
Qed.

Lemma alpha_no_ws (s : jsstring) :
  forallb is_alpha s = true -> Forall (fun c => is_ws c = false) s.
Proof.
  rewrite forallb_forall, Forall_forall; intros H c Hc.
  specialize (H c Hc); revert H.
  unfold is_alpha, is_ws, in_range; lia.
Qed.

Lemma alpha_no_dot (s : jsstring) :
  forallb is_alpha s = true -> ~ In (ch ".") s.
Proof.
  rewrite forallb_forall; intros H Hin.
  specialize (H _ Hin); vm_compute in H; discriminate.
Qed.

Lemma assoc_In {A : Type} (k : jsstring) (l : list (jsstring * A)) v :
  assoc k l = Some v -> In (k, v) l.
Proof.
  induction l as [|[k' v'] l IH]; simpl; [discriminate|].
  destruct (streq k k') eqn:Hk.
  - apply streq_eq in Hk; intros H; injection H as ->; subst; now left.
  - intros H; right; auto.
Qed.

Lemma typoDomains_miss (k : jsstring) :
  truthy (get typoDomains k) = false -> assoc k typoDomains = None.
Proof.
  unfold get; destruct (assoc k typoDomains) as [v|] eqn:Hk; [|reflexivity].
  apply assoc_In in Hk; simpl in Hk.
  repeat (destruct Hk as [Hk|Hk]; [injection Hk as _ <-; discriminate|]).
  destruct Hk.
Qed.

Lemma split_last_two {A : Type} (l : list A) :
  2 <= length l -> exists pre a b, l = pre ++ [a; b].
Proof.
  intros H.
  destruct (exists_last (l := l)) as [l' [b ->]];
    [intros ->; simpl in H; lia|].
  rewrite length_app in H; simpl in H.
  destruct (exists_last (l := l')) as [pre [a ->]];
    [intros ->; simpl in H; lia|].
  exists pre, a, b; now rewrite <- app_assoc.
Qed.

(** X1.  What an accepted address looks like.  A non-empty email that
    [validateEmail] accepts is local@domain with exactly one "@" and no
    white space; the local part has at least 2 characters; the domain as
    typed ends in a dot and a top-level label of at least 2 letters a-z or
    A-Z; the lower-cased domain ends in two labels, of which the
    second-level one has at least 2 code units, and which, joined by a
    dot, are not a key of the full-domain typo table. *)
Theorem accepted_email_shape :
  forall email : jsstring,
    email <> [] -> validateEmail email = true ->
    exists local domain labels sld tld,
      email = local ++ str "@" ++ domain
      /\ split (ch "@") email = [local; domain]
      /\ Forall (fun c => is_ws c = false) email
      /\ 2 <= length local
      /\ (exists name top,
             domain = name ++ str "." ++ top
             /\ 2 <= length top /\ forallb is_alpha top = true)
      /\ split (ch ".") (toLowerCase domain) = labels ++ [sld; tld]
      /\ 2 <= length sld
      /\ assoc (sld ++ str "." ++ tld) typoDomains = None.
Proof.
  intros email Hne H; unfold validateEmail in H.
  apply is_empty_false in Hne; rewrite Hne in H.
  destruct (test basicRegex email) eqn:Hre; [simpl in H | discriminate].
  destruct (basicRegex_shape _ Hre)
    as [local [dom [top [Hemail [_ [Hl [Hdne [Hd [Hlen Ht]]]]]]]]].
  assert (Hsplit : split (ch "@") email = [local; dom ++ str "." ++ top]).
  { rewrite Hemail; apply split_local_domain; [now apply forallb_not_at|].
    rewrite !in_app_iff; intros [Hin|[Hin|Hin]].
    - now apply (forallb_not_at dom).
    - simpl in Hin; destruct Hin as [Hin|[]]; discriminate.
    - now apply (forallb_alpha_not_at top). }
  rewrite Hsplit in H.
  assert (Hnows : Forall (fun c => is_ws c = false) email).
  { rewrite Hemail.
    apply Forall_app; split; [now apply not_ws_at_no_ws|].
    constructor; [reflexivity|].
    apply Forall_app; split; [now apply not_ws_at_no_ws|].
    constructor; [reflexivity | now apply alpha_no_ws]. }
  rewrite (trimmed_fixed local) in H
    by now apply no_ws_trimmed, not_ws_at_no_ws.
  destruct (is_empty local || (length local <? 2)) eqn:Hlocal;
    [discriminate|].
  remember (dom ++ str "." ++ top) as domain eqn:Hdomain.
  destruct (length (split (ch ".") (toLowerCase domain)) <? 2) eqn:Hparts;
    [discriminate|].
  apply Nat.ltb_ge, split_last_two in Hparts
    as [labels [sld [tld Hparts]]].
  rewrite Hparts in H.
  destruct (nth_last_two labels sld tld []) as [Hsld Htld].
  cbv zeta in Hsld, Htld; rewrite Hsld, Htld in H.
  destruct (is_empty sld || _) eqn:Hs; [discriminate|].
  destruct (truthy (get typoDomains _)) eqn:Htypo; [discriminate|].
  apply orb_false_iff in Hlocal as [_ Hlocal], Hs as [_ Hs].
  apply Nat.ltb_ge in Hlocal, Hs.
  exists local, domain, labels, sld, tld.
  split; [exact Hemail|]. split; [exact Hsplit|]. split; [exact Hnows|].
  split; [exact Hlocal|].
  split; [exists dom, top; split; [exact Hdomain | split; assumption]|].
  split; [exact Hparts|]. split; [exact Hs|].
  now apply typoDomains_miss.
Qed.

Lemma accepted_email_shape_witness :
  exists local domain labels sld tld,
    str "ada@Mail.Example.org" = local ++ str "@" ++ domain
    /\ split (ch ".") (toLowerCase domain) = labels ++ [sld; tld]
    /\ 2 <= length sld.
Proof.
  destruct (accepted_email_shape (str "ada@Mail.Example.org"))
    as [local [domain [labels [sld [tld [H1 [_ [_ [_ [_ [H6 [H7 _]]]]]]]]]]]].
  - discriminate.
  - vm_compute; reflexivity.
  - exists local, domain, labels, sld, tld; auto.
Defined.

End FormExtras.

Section AsciiCase.
Import Js Form.

Lemma ascii_lower_ascii (s : jsstring) :
  forallb Spec.is_ascii s = true ->
  forallb Spec.is_ascii (map Spec.ascii_lower s) = true.
Proof.
  rewrite !forallb_forall; intros H c Hc.
  apply in_map_iff in Hc as [c' [<- Hc']]; specialize (H c' Hc').
  revert H; unfold Spec.is_ascii, Spec.ascii_lower, in_range.
  destruct (_ && _) eqn:E; lia.
Qed.

Lemma ascii_lower_idempotent c :
  Spec.ascii_lower (Spec.ascii_lower c) = Spec.ascii_lower c.
Proof.
  unfold Spec.ascii_lower, in_range.
  destruct ((65 <=? c)%N && (c <=? 90)%N) eqn:E; [|now rewrite E].
  replace ((65 <=? c + 32)%N && (c + 32 <=? 90)%N) with false by lia.
  reflexivity.
Qed.

Lemma ascii_lower_class (p : N -> bool) :
  (forall c, in_range 65 90 c = true -> p (c + 32)%N = p c) ->
  forall c, p (Spec.ascii_lower c) = p c.
Proof.
  intros H c; unfold Spec.ascii_lower.
  destruct (in_range 65 90 c) eqn:E; auto.
Qed.

Lemma ascii_lower_char (x c : N) :
  in_range 65 90 x = false -> in_range 97 122 x = false ->
  Spec.ascii_lower c = x <-> c = x.
Proof.
  unfold Spec.ascii_lower, in_range.
  destruct ((65 <=? c)%N && (c <=? 90)%N) eqn:E; lia.
Qed.

Lemma split_map (f : N -> N) sep (s : jsstring) :
  (forall c, f c = sep <-> c = sep) ->
  split sep (map f s) = map (map f) (split sep s).
Proof.
  intros Hf; induction s as [|c s IH]; simpl; [reflexivity|].
  destruct (N.eqb c sep) eqn:Hc.
  - apply N.eqb_eq in Hc.
    rewrite (proj2 (N.eqb_eq _ _) (proj2 (Hf c) Hc)), IH; reflexivity.
  - assert (Hfc : N.eqb (f c) sep = false).
    { apply N.eqb_neq; intros E; apply (proj1 (Hf c)) in E.
      apply N.eqb_neq in Hc; contradiction. }
    rewrite Hfc, IH.
    destruct (split sep s) as [|piece pieces] eqn:Hs; [|reflexivity].
    now apply split_not_nil in Hs.
Qed.

Lemma split_pieces (p : N -> bool) sep (s : jsstring) :
  forallb p s = true -> forallb (forallb p) (split sep s) = true.
Proof.
  induction s as [|c s IH]; simpl; [reflexivity|].
  intros H; apply andb_true_iff in H as [Hc Hs]; specialize (IH Hs).
  destruct (N.eqb c sep); [exact IH|].
  destruct (split sep s) as [|piece pieces]; simpl in *;
    [now rewrite Hc | now rewrite Hc].
Qed.

Lemma deriv_respects (f : N -> N) (r : regex) c :
  Spec.respects f r -> deriv (f c) r = deriv c r.
Proof.
  induction r as [| |p|r1 IH1 r2 IH2|r1 IH1 r2 IH2|r IH]; simpl; auto.
  - intros H; now rewrite H.
  - intros [H1 H2]; now rewrite IH1, IH2.
  - intros [H1 H2]; now rewrite IH1, IH2.
  - intros H; now rewrite IH.
Qed.

Lemma respects_deriv (f : N -> N) (r : regex) c :
  Spec.respects f r -> Spec.respects f (deriv c r).
Proof.
  induction r as [| |p|r1 IH1 r2 IH2|r1 IH1 r2 IH2|r IH]; simpl; auto.
  - intros _; now destruct (p c).
  - intros [H1 H2]; destruct (nullable r1); simpl; auto.
  - intros [H1 H2]; auto.
Qed.

Lemma test_map (f : N -> N) (s : jsstring) : forall r,
  Spec.respects f r -> test r (map f s) = test r s.
Proof.
  induction s as [|c s IH]; intros r Hr; simpl; [reflexivity|].
  rewrite deriv_respects by assumption.
  now apply IH, respects_deriv.
Qed.

Lemma trimStart_map (f : N -> N) (s : jsstring) :
  (forall c, is_ws (f c) = is_ws c) ->
  trimStart (map f s) = map f (trimStart s).
Proof.
  intros Hf; induction s as [|c s IH]; simpl; [reflexivity|].
  rewrite Hf; now destruct (is_ws c).
Qed.

Lemma trim_map (f : N -> N) (s : jsstring) :
  (forall c, is_ws (f c) = is_ws c) -> trim (map f s) = map f (trim s).
Proof.
  intros Hf; unfold trim, trimEnd.
  now rewrite trimStart_map, <- map_rev, trimStart_map, map_rev.
Qed.

Lemma ascii_lower_ws c : is_ws (Spec.ascii_lower c) = is_ws c.
Proof.
  apply ascii_lower_class; clear c; intros c.
  unfold is_ws, in_range; lia.
Qed.

Lemma basicRegex_respects_case : Spec.respects Spec.ascii_lower basicRegex.
Proof.
  unfold basicRegex, Plus, AtLeast2; simpl.
  assert (H1 : forall c, not_ws_at (Spec.ascii_lower c) = not_ws_at c).
  { apply ascii_lower_class; intros c.
    unfold not_ws_at, is_ws, is_char, in_range.
    change (ch "@") with 64%N; lia. }
  assert (H2 : forall c, is_char (ch "@") (Spec.ascii_lower c)
                         = is_char (ch "@") c).
  { apply ascii_lower_class; intros c.
    unfold is_char, in_range; change (ch "@") with 64%N; lia. }
  assert (H3 : forall c, is_char (ch ".") (Spec.ascii_lower c)
                         = is_char (ch ".") c).
  { apply ascii_lower_class; intros c.
    unfold is_char, in_range; change (ch ".") with 46%N; lia. }
  assert (H4 : forall c, is_alpha (Spec.ascii_lower c) = is_alpha c).
  { apply ascii_lower_class; intros c.
    unfold is_alpha, in_range; lia. }
  tauto.
Qed.

(** X3.  The verdict on an ASCII address does not depend on the case of
    its letters: [validateEmail] gives an email made of ASCII characters
    and its lower-case form the same answer. *)
Theorem validateEmail_ignores_case :
  forall email : jsstring,
    forallb Spec.is_ascii email = true ->
    validateEmail (toLowerCase email) = validateEmail email.
Proof.
  intros email Hascii.
  rewrite (toLowerCase_ascii email Hascii); unfold validateEmail.
  assert (He : is_empty (map Spec.ascii_lower email) = is_empty email)
    by now destruct email.
  rewrite He, (test_map _ _ _ basicRegex_respects_case).
  rewrite (split_map Spec.ascii_lower (ch "@") email)
    by (intros c; now apply ascii_lower_char).
  pose proof (split_pieces Spec.is_ascii (ch "@") email Hascii) as Hpieces.
  destruct (split (ch "@") email) as [|local [|domainFull more]]; simpl map;
    try reflexivity.
  cbv beta iota zeta.
  simpl in Hpieces.
  apply andb_true_iff in Hpieces as [_ Hpieces].
  apply andb_true_iff in Hpieces as [Hdomain _].
  assert (Hl : is_empty (map Spec.ascii_lower local) = is_empty local)
    by now destruct local.
  rewrite Hl, (trim_map Spec.ascii_lower local ascii_lower_ws), length_map.
  rewrite (toLowerCase_ascii _ (ascii_lower_ascii _ Hdomain)).
  rewrite (toLowerCase_ascii _ Hdomain), map_map.
  now rewrite (map_ext _ _ ascii_lower_idempotent).
Qed.

Lemma validateEmail_ignores_case_witness :
  validateEmail (toLowerCase (str "Ada.L@Example.ORG"))
  = validateEmail (str "Ada.L@Example.ORG")
  /\ validateEmail (str "ADA@G.COM") = false.
Proof.
  split.
  - exact (validateEmail_ignores_case (str "Ada.L@Example.ORG") eq_refl).
  - rewrite <- (validateEmail_ignores_case (str "ADA@G.COM") eq_refl).
    vm_compute; reflexivity.
Defined.

End AsciiCase.

Section FormRoundTrip.
Import Js Form.

Lemma or_empty_or_undefined (s : jsstring) : or_empty (or_undefined s) = s.
Proof. now destruct s. Qed.

Lemma spread_or_undefined (old : optional) (s : jsstring) :
  spread old (or_undefined s) = or_undefined s.
Proof. now destruct s. Qed.

Lemma accepted_email_matches (email : jsstring) :
  email <> [] -> validateEmail email = true -> test basicRegex email = true.
Proof.
  intros Hne H; unfold validateEmail in H.
  apply is_empty_false in Hne; rewrite Hne in H.
  now destruct (test basicRegex email).
Qed.

Lemma matched_email_no_ws (email : jsstring) :
  test basicRegex email = true -> Forall (fun c => is_ws c = false) email.
Proof.
  intros H.
  destruct (basicRegex_shape _ H)
    as [local [dom [tld [-> [_ [Hl [_ [Hd [_ Ht]]]]]]]]].
  apply Forall_app; split; [now apply not_ws_at_no_ws|].
  constructor; [reflexivity|].
  apply Forall_app; split; [now apply not_ws_at_no_ws|].
  constructor; [reflexivity | now apply alpha_no_ws].
Qed.

Lemma name_error_trim (name : jsstring) :
  name_error (trim name) = name_error name.
Proof. unfold name_error; now rewrite trim_idempotent. Qed.

Lemma email_error_trim (email : jsstring) :
  email_error email = None -> email_error (trim email) = None.
Proof.
  intros H; destruct email as [|c email']; [exact H|].
  assert (Hv : validateEmail (c :: email') = true).
  { unfold email_error in H; simpl negb in H; simpl andb in H.
    destruct (validateEmail (c :: email')); [reflexivity|].
    simpl in H; destruct (option_map _ _); [|discriminate].
    destruct (_ && _); discriminate. }
  rewrite trimmed_fixed; [exact H|].
  apply no_ws_trimmed, matched_email_no_ws, accepted_email_matches;
    [discriminate | exact Hv].
Qed.

Lemma blank_no_digits (w : jsstring) :
  Spec.blank w -> strip_non_digits w = [].
Proof.
  unfold strip_non_digits; induction 1 as [|c w Hc _ IH]; [reflexivity|].
  simpl; rewrite IH.
  replace (is_digit c) with false; [reflexivity|].
  revert Hc; unfold is_digit, is_ws, in_range; lia.
Qed.

Lemma validatePhone_trim (phone : jsstring) :
  phone <> [] -> validatePhone phone = true ->
  validatePhone (trim phone) = true.
Proof.
  intros Hne H; unfold validatePhone in H.
  apply is_empty_false in Hne; rewrite Hne in H.
  apply andb_true_iff in H as [Hre Hd].
  apply phoneRegex_chars in Hre as [_ Hre].
  destruct (trim_decompose phone) as [w1 [w2 [Hs [Hw1 Hw2]]]].
  assert (Hdigits : strip_non_digits (trim phone) = strip_non_digits phone).
  { pose proof (f_equal strip_non_digits Hs) as E.
    unfold strip_non_digits in E |- *; rewrite !filter_app in E.
    fold (strip_non_digits w1) in E; fold (strip_non_digits w2) in E.
    rewrite (blank_no_digits w1 Hw1), (blank_no_digits w2 Hw2) in E.
    now rewrite app_nil_r in E. }
  unfold validatePhone; rewrite Hdigits, Hd, andb_true_r.
  destruct (is_empty (trim phone)) eqn:He; [reflexivity|].
  apply phoneRegex_chars; split; [now apply is_empty_false|].
  rewrite Hs, !forallb_app in Hre.
  apply andb_true_iff in Hre as [_ Hre].
  now apply andb_true_iff in Hre as [Hre _].
Qed.

Lemma phone_error_trim (phone : jsstring) :
  phone_error phone = None -> phone_error (trim phone) = None.
Proof.
  intros H; destruct phone as [|c phone']; [exact H|].
  assert (Hv : validatePhone (c :: phone') = true).
  { unfold phone_error in H; simpl negb in H; simpl andb in H.
    now destruct (validatePhone (c :: phone')). }
  unfold phone_error.
  rewrite validatePhone_trim by (discriminate || exact Hv).
  now rewrite andb_false_r.
Qed.

Lemma committed_means_valid editContact onEdit formData c :
  handleSubmit editContact onEdit formData = Some c ->
  name_error (FormData.name formData) = None
  /\ email_error (FormData.email formData) = None
  /\ phone_error (FormData.phone formData) = None
  /\ payload c
     = ContactData.mk (trim (FormData.name formData))
         (or_undefined (trim (FormData.email formData)))
         (or_undefined (trim (FormData.phone formData)))
         (or_undefined (FormData.avatar formData)).
Proof.
  unfold handleSubmit; intros H.
  destruct (snd (validateForm formData)) eqn:Hv; [|discriminate].
  unfold validateForm, no_errors in Hv; simpl in Hv.
  destruct (name_error _); [discriminate|].
  destruct (email_error _); [discriminate|].
  destruct (phone_error _); [discriminate|].
  repeat split.
  destruct editContact as [e|]; [destruct onEdit|];
    injection H as <-; reflexivity.
Qed.

(** X6.  Saving again what the form saved.  Take any payload the form has
    committed and a contact stored with exactly these fields under some
    identifier.  Opening that contact for an edit fills the form, and
    submitting the form untouched is accepted and commits, for that
    identifier, the very same payload. *)
Theorem resubmit_unchanged :
  forall (editContact : option Contact.t) (onEdit : bool)
         (formData : FormData.t) (c : commit) (id : jsstring),
    handleSubmit editContact onEdit formData = Some c ->
    let d := payload c in
    let stored :=
      Contact.mk id (ContactData.name d) (ContactData.email d)
                 (ContactData.phone d) (ContactData.avatar d) in
    handleSubmit (Some stored) true (populateForm stored)
    = Some (OnEdit id d).
Proof.
  intros editContact onEdit formData c id H d stored.
  destruct (committed_means_valid _ _ _ _ H) as [Hn [He [Hp Hd]]].
  unfold stored, d; rewrite Hd; clear stored d Hd H.
  unfold populateForm, handleSubmit, validateForm, no_errors; simpl.
  rewrite !or_empty_or_undefined.
  rewrite name_error_trim, Hn, (email_error_trim _ He),
    (phone_error_trim _ Hp), !trim_idempotent.
  reflexivity.
Qed.

Lemma resubmit_unchanged_witness :
  let d :=
    ContactData.mk (str "Ada Lovelace") (Val (str "ada@example.com"))
                   (Val (str "+44 20 7946 0958")) Undefined in
  handleSubmit
    (Some (Contact.mk (str "7") (str "Ada Lovelace")
             (Val (str "ada@example.com")) (Val (str "+44 20 7946 0958"))
             Undefined))
    true
    (FormData.mk (str "Ada Lovelace") (str "ada@example.com")
                 (str "+44 20 7946 0958") [])
  = Some (OnEdit (str "7") d).
Proof.
  exact (resubmit_unchanged None false
           (FormData.mk (str " Ada Lovelace ") (str "ada@example.com")
                        (str " +44 20 7946 0958 ") [])
           _ (str "7") eq_refl).
Defined.

(** X7.  An edit through the form replaces every field.  When [handleSubmit]
    commits an edit, the identifier is that of the contact being edited,
    and [updateContact] with the committed payload puts in place of the
    stored record one that carries exactly the fields of the payload:
    an email, phone or avatar left empty in the form is [undefined]
    afterwards, never the old value. *)
Theorem form_edit_replaces_fields :
  forall (editContact : Contact.t) (formData : FormData.t)
         (id : jsstring) (d : ContactData.t) (st : Store.state),
    handleSubmit (Some editContact) true formData = Some (OnEdit id d) ->
    In id (map Contact.id st) ->
    let updated :=
      Contact.mk id (ContactData.name d) (ContactData.email d)
                 (ContactData.phone d) (ContactData.avatar d) in
    id = Contact.id editContact
    /\ ContactData.email d <> Missing
    /\ ContactData.phone d <> Missing
    /\ ContactData.avatar d <> Missing
    /\ exists before old after,
         st = before ++ old :: after
         /\ ~ In id (map Contact.id before)
         /\ Store.updateContact id d st
            = (Store.Resolved updated, before ++ updated :: after).
Proof.
  intros editContact formData id d st H Hin updated.
  destruct (committed_means_valid _ _ _ _ H) as [_ [_ [_ Hd]]].
  simpl in Hd.
  assert (Hid : id = Contact.id editContact).
  { unfold handleSubmit in H.
    destruct (snd (validateForm formData)); [|discriminate].
    now injection H as <- _. }
  assert (Hnm : forall s, or_undefined s <> Missing)
    by (intros s; unfold or_undefined; destruct (is_empty s); discriminate).
  assert (He : ContactData.email d
               = or_undefined (trim (FormData.email formData)))
    by now rewrite Hd.
  assert (Hp : ContactData.phone d
               = or_undefined (trim (FormData.phone formData)))
    by now rewrite Hd.
  assert (Ha : ContactData.avatar d
               = or_undefined (FormData.avatar formData))
    by now rewrite Hd.
  split; [exact Hid|].
  split; [rewrite He; apply Hnm|].
  split; [rewrite Hp; apply Hnm|].
  split; [rewrite Ha; apply Hnm|].
  destruct (updateContact_present id d st Hin)
    as [before [old [after [Hst [Hb [Hold Hu]]]]]].
  exists before, old, after.
  split; [exact Hst|]. split; [exact Hb|].
  rewrite Hu; unfold updated, Store.merge.
  rewrite Hold, He, Hp, Ha, !spread_or_undefined.
  reflexivity.
Qed.

Lemma form_edit_replaces_fields_witness :
  exists before old after,
    Store.mockContacts = before ++ old :: after
    /\ snd (Store.updateContact (str "2")
              (ContactData.mk (str "M. Chen") Undefined
                 (Val (str "+1 (555) 234-5678")) Undefined)
              Store.mockContacts)
       = before
         ++ Contact.mk (str "2") (str "M. Chen") Undefined
              (Val (str "+1 (555) 234-5678")) Undefined
         :: after.
Proof.
  destruct (form_edit_replaces_fields
              (nth 1 Store.mockContacts (Store.seed "" "" "" ""))
              (FormData.mk (str "M. Chen") [] (str "+1 (555) 234-5678") [])
              (str "2")
              (ContactData.mk (str "M. Chen") Undefined
                 (Val (str "+1 (555) 234-5678")) Undefined)
              Store.mockContacts eq_refl)
    as [_ [_ [_ [_ [before [old [after [Hst [_ Hu]]]]]]]]].
  - vm_compute; auto.
  - exists before, old, after.
    split; [exact Hst | now rewrite Hu].
Defined.

(** X2.  [validateEmail] cannot raise.  Its only step that could, the
    call of [toLowerCase] on [domainFull], is reached after [basicRegex]
    has matched, and then [email.split("@")] has exactly two pieces: the
    local part, which is not empty, and [domainFull], which is a
    string. *)
Theorem domainFull_always_defined :
  forall email : jsstring,
    test basicRegex email = true ->
    exists local domainFull,
      split (ch "@") email = [local; domainFull]
      /\ nth_error (split (ch "@") email) 1 = Some domainFull
      /\ local <> [] /\ domainFull <> [].
Proof.
  intros email H.
  destruct (basicRegex_shape email H)
    as [l [d [t [-> [Hl [Hla [Hd [Hda [_ Ht]]]]]]]]].
  assert (Hs : split (ch "@") (l ++ str "@" ++ d ++ str "." ++ t)
               = [l; d ++ str "." ++ t]).
  { apply split_local_domain; [now apply forallb_not_at|].
    rewrite !in_app_iff; intros [Hin|[Hin|Hin]].
    - now apply (forallb_not_at d).
    - simpl in Hin; destruct Hin as [Hin|[]]; discriminate.
    - now apply (forallb_alpha_not_at t). }
  exists l, (d ++ str "." ++ t); rewrite Hs.
  split; [reflexivity|]. split; [reflexivity|].
  split; [exact Hl | now destruct d].
Qed.

Lemma domainFull_always_defined_witness :
  exists local domainFull,
    split (ch "@") (str "a@b.co") = [local; domainFull].
Proof.
  destruct (domainFull_always_defined (str "a@b.co") eq_refl)
    as [local [domainFull [Hs _]]].
  now exists local, domainFull.
Defined.

End FormRoundTrip.


(* ================================================================= *)
(** ** More about the store *)

Section StoreExtras.
Import Js Store.

Lemma findIndex_app {A : Type} (p : A -> bool) (before after : list A) x :
  (forall y, In y before -> p y = false) -> p x = true ->
  findIndex p (before ++ x :: after) = Some (length before).
Proof.
  intros Hb Hx; induction before as [|a before IH]; simpl.
  - now rewrite Hx.
  - rewrite (Hb a) by now left.
    rewrite IH; [reflexivity|].
    intros y Hy; apply Hb; now right.
Qed.

Lemma updateContact_at id updates (before after : state) old :
  ~ In id (map Contact.id before) -> Contact.id old = id ->
  updateContact id updates (before ++ old :: after)
  = (Resolved (merge old updates), before ++ merge old updates :: after).
Proof.
  intros Hb Hold; unfold updateContact.
  rewrite (findIndex_app _ before after old).
  - rewrite nth_error_app2, Nat.sub_diag by lia; simpl.
    rewrite firstn_app, Nat.sub_diag, firstn_all; simpl.
    rewrite app_nil_r, skipn_app, skipn_all2 by lia.
    now replace (length before + 1 - length before) with 1 by lia.
  - exact (proj1 (id_absent id before) Hb).
  - now apply streq_eq.
Qed.

Lemma merge_merge (old : Contact.t) (updates : ContactData.t) :
  merge (merge old updates) updates = merge old updates.
Proof.
  unfold merge; simpl; f_equal;
    match goal with |- spread (spread _ ?n) ?n = _ => now destruct n end.
Qed.

Lemma keep_others_absent id (l : state) :
  ~ In id (map Contact.id l) ->
  filter (fun c => negb (streq (Contact.id c) id)) l = l.
Proof.
  intros Hl; apply forallb_filter_id, forallb_forall; intros c Hc.
  apply negb_true_iff, streq_neq; intros E; apply Hl, in_map_iff; eauto.
Qed.

Lemma NoDup_map_filter {A B : Type} (f : A -> B) (p : A -> bool) l :
  NoDup (map f l) -> NoDup (map f (filter p l)).
Proof.
  induction l as [|a l IH]; simpl; intros H; [constructor|].
  inversion H as [|? ? Hin Hnd]; subst.
  destruct (p a); simpl; auto.
  constructor; auto.
  rewrite in_map_iff in Hin |- *; intros [x [E Hx]].
  apply filter_In in Hx as [Hx _]; eauto.
Qed.

Lemma searchContacts_state (query : jsstring) (st : state) :
  snd (searchContacts query st) = st.
Proof. unfold searchContacts; now destruct (is_empty (trim query)). Qed.

Lemma run_keeps_ids_distinct (requests : list request) :
  forall st : state,
    NoDup (map Contact.id st) ->
    NoDup (generated requests) ->
    (forall u, In u (generated requests) -> ~ In u (map Contact.id st)) ->
    NoDup (map Contact.id (run requests st)).
Proof.
  induction requests as [|r requests IH]; intros st Hst Hgen Hfresh;
    [exact Hst|].
  change (run (r :: requests) st) with (run requests (step st r)).
  destruct r as [|query|uuid contact|id updates|id];
    simpl in Hgen, Hfresh; unfold step.
  - apply IH; auto.
  - rewrite searchContacts_state; apply IH; auto.
  - inversion Hgen as [|? ? Hu Hrest]; subst.
    apply IH; simpl; auto.
    + rewrite map_app; apply NoDup_app; auto.
      * repeat constructor; intros [].
      * intros a Ha [E|[]]; apply (Hfresh a); auto.
    + intros u Hin; rewrite map_app, in_app_iff; simpl.
      intros [H|[E|[]]]; [apply (Hfresh u); auto | subst; contradiction].
  - apply IH; auto; now rewrite updateContact_ids.
  - apply IH; simpl; auto.
    + now apply NoDup_map_filter.
    + intros u Hin Hu; apply (Hfresh u Hin).
      rewrite in_map_iff in Hu |- *; destruct Hu as [c [E Hc]].
      apply filter_In in Hc as [Hc _]; eauto.
Qed.

(** X8.  Identifiers stay unique.  After any sequence of calls settled on the
    initial store, no two records of the collection share an identifier,
    provided the identifiers handed out by [crypto.randomUUID()] are
    version 4 UUID strings and pairwise distinct. *)
Theorem identifiers_stay_unique :
  forall requests : list request,
    NoDup (generated requests) ->
    Forall (fun u => is_uuid u = true) (generated requests) ->
    NoDup (map Contact.id (run requests mockContacts)).
Proof.
  intros requests Hdistinct Hshape.
  apply run_keeps_ids_distinct; [|exact Hdistinct|].
  - simpl; repeat constructor; simpl; intuition discriminate.
  - intros u Hu Hseed; apply seed_ids_not_uuid in Hseed.
    rewrite Forall_forall in Hshape; specialize (Hshape u Hu); congruence.
Qed.

Lemma identifiers_stay_unique_witness :
  NoDup
    (map Contact.id
       (run [Create (str "123e4567-e89b-42d3-a456-426614174000")
               (ContactData.mk (str "Ada") Undefined Undefined Undefined);
             Update (str "2")
               (ContactData.mk (str "M. Chen") Missing Missing Missing);
             Delete (str "3");
             Create (str "9b2c1d3e-0f4a-4b6c-8d7e-5f6a7b8c9d0e")
               (ContactData.mk (str "Bob") Undefined Undefined Undefined)]
            mockContacts)).
Proof.
  apply identifiers_stay_unique.
  - simpl; repeat constructor; simpl; intuition discriminate.
  - simpl; repeat constructor.
Defined.

(** X9.  Creating a contact and deleting it again restores the collection,
    when the identifier given to the new record was not in use. *)
Theorem create_then_delete_restores :
  forall (uuid : jsstring) (contact : ContactData.t) (st : state),
    ~ In uuid (map Contact.id st) ->
    snd (deleteContact uuid (snd (createContact uuid contact st))) = st.
Proof.
  intros uuid contact st Hfresh; simpl.
  rewrite filter_app, keep_others_absent by assumption; simpl.
  now rewrite streq_refl, app_nil_r.
Qed.

Lemma create_then_delete_restores_witness :
  snd (deleteContact (str "11")
         (snd (createContact (str "11")
                 (ContactData.mk (str "Ada") Undefined Undefined Undefined)
                 mockContacts)))
  = mockContacts.
Proof.
  apply create_then_delete_restores.
  vm_compute; intuition discriminate.
Defined.

(** X10.  Updating twice with the same data is updating once: the second call
    settles as the first did and leaves the collection the first
    produced. *)
Theorem update_idempotent :
  forall (id : jsstring) (updates : ContactData.t) (st : state),
    updateContact id updates (snd (updateContact id updates st))
    = updateContact id updates st.
Proof.
  intros id updates st.
  destruct (in_dec (list_eq_dec N.eq_dec) id (map Contact.id st)) as [H|H].
  - destruct (updateContact_present id updates st H)
      as [before [old [after [-> [Hb [Hold Hu]]]]]].
    rewrite Hu; simpl.
    rewrite updateContact_at, merge_merge; auto.
  - rewrite (updateContact_absent id updates st H); simpl.
    now apply updateContact_absent.
Qed.

(** X11.  An update followed by the deletion of the same identifier leaves the
    collection that the deletion alone leaves. *)
Theorem update_then_delete :
  forall (id : jsstring) (updates : ContactData.t) (st : state),
    snd (deleteContact id (snd (updateContact id updates st)))
    = snd (deleteContact id st).
Proof.
  intros id updates st.
  destruct (in_dec (list_eq_dec N.eq_dec) id (map Contact.id st)) as [H|H].
  - destruct (updateContact_present id updates st H)
      as [before [old [after [-> [Hb [Hold Hu]]]]]].
    rewrite Hu; simpl; rewrite !filter_app; simpl.
    now rewrite Hold, streq_refl.
  - now rewrite updateContact_absent.
Qed.

(** X12.  Deletions commute: two identifiers can be deleted in either order. *)
Theorem delete_commutes :
  forall (id1 id2 : jsstring) (st : state),
    snd (deleteContact id1 (snd (deleteContact id2 st)))
    = snd (deleteContact id2 (snd (deleteContact id1 st))).
Proof.
  intros id1 id2 st; simpl.
  induction st as [|c st IH]; simpl; [reflexivity|].
  destruct (streq (Contact.id c) id1) eqn:H1,
           (streq (Contact.id c) id2) eqn:H2; simpl;
    rewrite ?H1, ?H2; simpl; now rewrite IH.
Qed.

(** X13.  A contact just created is found by its name.  For a query that is
    not blank and equals the name of the new contact up to the case of
    letters, a search issued after [createContact] has settled returns
    the new record, as the last of its results. *)
Theorem created_contact_found_by_name :
  forall (uuid : jsstring) (contact : ContactData.t) (st : state)
         (query : jsstring),
    ~ Spec.blank query ->
    Spec.same_ignoring_case query (ContactData.name contact) ->
    exists earlier newContact,
      fst (createContact uuid contact st) = Resolved newContact
      /\ fst (searchContacts query (snd (createContact uuid contact st)))
         = Resolved (earlier ++ [newContact]).
Proof.
  intros uuid contact st query Hnb Hsame; simpl.
  eexists; eexists; split; [reflexivity|].
  unfold searchContacts.
  destruct (is_empty (trim query)) eqn:Hq;
    [apply is_empty_trim in Hq; contradiction|].
  simpl fst; rewrite filter_app; simpl.
  unfold Spec.same_ignoring_case in Hsame; rewrite Hsame.
  assert (Hself : forall s, includes s s = true).
  { intros s; apply includes_contains; exists [], []; simpl.
    now rewrite app_nil_r. }
  now rewrite Hself.
Qed.

Lemma created_contact_found_by_name_witness :
  exists earlier newContact,
    fst (createContact (str "11")
           (ContactData.mk (str "Sarah Connor") Undefined Undefined
                           Undefined) mockContacts)
    = Resolved newContact
    /\ fst (searchContacts (str "SARAH connor")
              (snd (createContact (str "11")
                      (ContactData.mk (str "Sarah Connor") Undefined
                                      Undefined Undefined) mockContacts)))
       = Resolved (earlier ++ [newContact]).
Proof.
  apply created_contact_found_by_name.
  - intros Hb; inversion Hb; discriminate.
  - reflexivity.
Defined.

End StoreExtras.

(* ================================================================= *)
(** ** More about the list projection *)

Section ViewExtras.
Import Js View.

Lemma sortedContacts_permutation
    (localeCompare : jsstring -> jsstring -> Z)
    (filtered : list Contact.t) (sortOption : SortOption) :
  Permutation filtered (sortedContacts localeCompare filtered sortOption).
Proof.
  destruct sortOption; simpl;
    try apply sort_permutation; apply Permutation_rev.
Qed.

Lemma filteredContacts_sublist (contacts : list Contact.t) query :
  exists keep, filteredContacts contacts query = filter keep contacts.
Proof.
  unfold filteredContacts; destruct (is_empty (trim query)).
  - exists (fun _ => true).
    symmetry; apply forallb_filter_id, forallb_forall; reflexivity.
  - eexists; reflexivity.
Qed.

(** X14.  The projection never invents or repeats a contact.  Whatever the
    comparator does, the projected list is a rearrangement of the
    contacts the filter kept, which are contacts of the list in their
    order; with a blank query it is a rearrangement of the whole list. *)
Theorem projection_rearranges :
  forall (localeCompare : jsstring -> jsstring -> Z)
         (contacts : list Contact.t) (query : jsstring)
         (sortOption : SortOption),
    Permutation (filteredContacts contacts query)
                (project localeCompare contacts query sortOption)
    /\ (exists keep, filteredContacts contacts query = filter keep contacts)
    /\ (forall c, In c (project localeCompare contacts query sortOption) ->
                  In c contacts)
    /\ length (project localeCompare contacts query sortOption)
       <= length contacts
    /\ (Spec.blank query ->
        Permutation contacts
                    (project localeCompare contacts query sortOption)).
Proof.
  intros localeCompare contacts query sortOption.
  pose proof (sortedContacts_permutation localeCompare
                (filteredContacts contacts query) sortOption) as Hp.
  destruct (filteredContacts_sublist contacts query) as [keep Hk].
  split; [exact Hp|]. split; [now exists keep|].
  split; [|split].
  - intros c Hc; apply (Permutation_in _ (Permutation_sym Hp)) in Hc.
    rewrite Hk in Hc; now apply filter_In in Hc.
  - unfold project; rewrite <- (Permutation_length Hp), Hk.
    apply filter_length_le.
  - intros Hb; unfold project, filteredContacts in *.
    apply is_empty_trim in Hb; now rewrite Hb in *.
Qed.

Lemma projection_rearranges_witness :
  Permutation Store.mockContacts
    (project Spec.by_length Store.mockContacts (str "  ") email_desc).
Proof.
  refine (proj2 (proj2 (proj2 (proj2
            (projection_rearranges Spec.by_length Store.mockContacts
               (str "  ") email_desc)))) _).
  repeat constructor.
Defined.

(** X15.  Every sort key orders by what it names.  With a consistent
    [localeCompare], name-desc leaves no contact before one whose name
    comes after its own, and email-asc and email-desc order the same way,
    upwards and downwards, by the email, with the empty string standing
    in for an absent email. *)
Theorem sorted_by_every_key :
  forall (localeCompare : jsstring -> jsstring -> Z),
    (forall a b, (0 < localeCompare a b)%Z -> (localeCompare b a <= 0)%Z) ->
    (forall a b c,
        (localeCompare a b <= 0)%Z -> (localeCompare b c <= 0)%Z ->
        (localeCompare a c <= 0)%Z) ->
    forall filtered : list Contact.t,
      StronglySorted
        (fun a b => (localeCompare (Contact.name b) (Contact.name a) <= 0)%Z)
        (sortedContacts localeCompare filtered name_desc)
      /\ StronglySorted
           (fun a b =>
              (localeCompare (or_empty (Contact.email a))
                             (or_empty (Contact.email b)) <= 0)%Z)
           (sortedContacts localeCompare filtered email_asc)
      /\ StronglySorted
           (fun a b =>
              (localeCompare (or_empty (Contact.email b))
                             (or_empty (Contact.email a)) <= 0)%Z)
           (sortedContacts localeCompare filtered email_desc).
Proof.
  intros localeCompare Hopp Htrans filtered; split; [|split].
  - apply (sort_sorted
             (fun a b => localeCompare (Contact.name b) (Contact.name a))).
    + intros a b; apply Hopp.
    + intros a b c H1 H2; exact (Htrans _ _ _ H2 H1).
  - apply (sort_sorted
             (fun a b => localeCompare (or_empty (Contact.email a))
                                       (or_empty (Contact.email b)))).
    + intros a b; apply Hopp.
    + intros a b c; apply Htrans.
  - apply (sort_sorted
             (fun a b => localeCompare (or_empty (Contact.email b))
                                       (or_empty (Contact.email a)))).
    + intros a b; apply Hopp.
    + intros a b c H1 H2; exact (Htrans _ _ _ H2 H1).
Qed.

Lemma sorted_by_every_key_witness :
  StronglySorted
    (fun a b =>
       (Spec.by_length (Contact.name b) (Contact.name a) <= 0)%Z)
    (sortedContacts Spec.by_length Store.mockContacts name_desc).
Proof.
  refine (proj1 (sorted_by_every_key Spec.by_length _ _ Store.mockContacts)).
  - unfold Spec.by_length; intros; lia.
  - unfold Spec.by_length; intros; lia.
Defined.

(** X16.  With no search, "recently added" shows a contact just created first,
    followed by the list as it was projected before. *)
Theorem recent_shows_new_first :
  forall (localeCompare : jsstring -> jsstring -> Z)
         (uuid : jsstring) (contact : ContactData.t) (st : Store.state)
         (query : jsstring),
    Spec.blank query ->
    exists newContact,
      fst (Store.createContact uuid contact st) = Store.Resolved newContact
      /\ project localeCompare (snd (Store.createContact uuid contact st))
           query recent
         = newContact :: project localeCompare st query recent.
Proof.
  intros localeCompare uuid contact st query Hb.
  eexists; split; [reflexivity|].
  unfold project, filteredContacts.
  apply is_empty_trim in Hb; rewrite Hb; simpl.
  now rewrite rev_app_distr.
Qed.

Lemma recent_shows_new_first_witness :
  exists newContact,
    fst (Store.createContact (str "11")
           (ContactData.mk (str "Ada") Undefined Undefined Undefined)
           Store.mockContacts) = Store.Resolved newContact
    /\ project Spec.by_length
         (snd (Store.createContact (str "11")
                 (ContactData.mk (str "Ada") Undefined Undefined Undefined)
                 Store.mockContacts)) (str " ") recent
       = newContact
         :: project Spec.by_length Store.mockContacts (str " ") recent.
Proof.
  apply recent_shows_new_first.
  repeat constructor.
Defined.

(** X17.  The list view and the store search agree on validated phones.  When
    every phone in the collection consists of the characters the form's
    phone pattern allows, [filteredContacts] keeps, for every query,
    exactly the contacts [searchContacts] returns. *)
Theorem view_filter_agrees_with_search :
  forall (st : Store.state) (query : jsstring),
    (forall c p, In c st -> Contact.phone c = Val p ->
                 forallb Form.phone_char p = true) ->
    fst (Store.searchContacts query st)
    = Store.Resolved (filteredContacts st query).
Proof.
  intros st query Hphones.
  unfold Store.searchContacts, filteredContacts.
  destruct (is_empty (trim query)); [reflexivity|].
  simpl; f_equal; apply filter_ext_in; intros c Hc.
  f_equal.
  destruct (Contact.phone c) as [| |p] eqn:Hp; simpl; try reflexivity.
  symmetry; apply includes_phone_lower, (Hphones c p Hc Hp).
Qed.

Lemma view_filter_agrees_with_search_witness :
  fst (Store.searchContacts (str "555) 2") Store.mockContacts)
  = Store.Resolved (filteredContacts Store.mockContacts (str "555) 2")).
Proof.
  apply view_filter_agrees_with_search.
  intros c p Hin Hp; simpl in Hin.
  repeat (destruct Hin as [<-|Hin];
          [injection Hp as <-; vm_compute; reflexivity|]).
  destruct Hin.
Defined.

End ViewExtras.

(* ================================================================= *)
(** ** What the list renders, and the contact card *)

Section ListingExtras.
Import Js Listing.

Lemma map_indexed_some {A B : Type} (f : A -> nat -> option B) (l : list A) :
  forall index ys,
    map_indexed f index l = Some ys ->
    length ys = length l
    /\ forall i x, nth_error l i = Some x ->
                   exists y, nth_error ys i = Some y
                             /\ f x (index + i) = Some y.
Proof.
  induction l as [|x l IH]; intros index ys; simpl.
  - intros H; injection H as <-; split; [reflexivity|].
    intros [|i] x; discriminate.
  - destruct (f x index) as [y|] eqn:Hy; [|discriminate].
    destruct (map_indexed f (S index) l) as [ys'|] eqn:Hys; [|discriminate].
    intros H; injection H as <-.
    destruct (IH _ _ Hys) as [Hlen Hnth].
    split; [simpl; now rewrite Hlen|].
    intros [|i] x'; simpl.
    + intros H; injection H as <-; exists y.
      now rewrite Nat.add_0_r.
    + intros H; destruct (Hnth i x' H) as [y' [H1 H2]].
      exists y'; split; [exact H1|].
      now replace (index + S i) with (S index + i) by lia.
Qed.

Lemma map_indexed_none {A B : Type} (f : A -> nat -> option B) (l : list A) :
  forall index,
    map_indexed f index l = None ->
    exists i x, nth_error l i = Some x /\ f x (index + i) = None.
Proof.
  induction l as [|x l IH]; intros index; simpl; [discriminate|].
  destruct (f x index) as [y|] eqn:Hy.
  - destruct (map_indexed f (S index) l) as [ys'|] eqn:Hys; [discriminate|].
    intros _; destruct (IH _ Hys) as [i [x' [H1 H2]]].
    exists (S i), x'; split; [exact H1|].
    now replace (index + S i) with (S index + i) by lia.
  - intros _; exists 0, x; split; [reflexivity|].
    now rewrite Nat.add_0_r.
Qed.

Lemma projection_rearranges_blank
    (localeCompare : jsstring -> jsstring -> Z) (contacts : list Contact.t)
    (query : jsstring) (sortOption : View.SortOption) :
  Spec.blank query ->
  length (View.project localeCompare contacts query sortOption)
  = length contacts.
Proof.
  intros Hb; unfold View.project, View.filteredContacts.
  apply is_empty_trim in Hb; rewrite Hb.
  symmetry; apply Permutation_length, sortedContacts_permutation.
Qed.

(** A card is missing exactly when the contact has no avatar and its name
    cannot be encoded. *)
Lemma contactCard_none (c : Contact.t) (index : nat) :
  contactCard c index = None <->
  or_empty (Contact.avatar c) = []
  /\ encodeURIComponent (Contact.name c) = None.
Proof.
  unfold contactCard.
  destruct (or_empty (Contact.avatar c)) as [|a avatar]; simpl.
  - destruct (encodeURIComponent (Contact.name c)); split;
      try discriminate; auto.
    intros [_ H]; discriminate.
  - split; [discriminate | intros [H _]; discriminate].
Qed.

Lemma contactCard_contact (c : Contact.t) (index : nat) card :
  contactCard c index = Some card -> Listing.contact card = c.
Proof.
  unfold contactCard.
  destruct (if negb _ then _ else _); [|discriminate].
  intros H; injection H as <-; reflexivity.
Qed.

Lemma map_indexed_contacts (l : list Contact.t) : forall index cards,
  map_indexed contactCard index l = Some cards ->
  map Listing.contact cards = l.
Proof.
  induction l as [|c l IH]; intros index cards; simpl.
  - intros H; injection H as <-; reflexivity.
  - destruct (contactCard c index) as [card|] eqn:Hc; [|discriminate].
    destruct (map_indexed contactCard (S index) l) as [cards'|] eqn:Hl;
      [|discriminate].
    intros H; injection H as <-; simpl.
    now rewrite (contactCard_contact _ _ _ Hc), (IH _ _ Hl).
Qed.

Lemma contactCards_contacts (sortedContacts : list Contact.t) cards :
  contactCards sortedContacts = Some cards ->
  map Listing.contact cards = sortedContacts.
Proof. apply map_indexed_contacts. Qed.

(** X18.  The main area never shows an empty grid.  The loading state shows
    exactly while loading; the empty state shows exactly when, not
    loading, the query is blank and there is no contact; the "no contacts
    found" notice shows only for a query that is not blank and projects
    to nothing; and otherwise the grid shows one card per projected
    contact, at least one.  The rendering ends in an exception only when
    a projected contact has no avatar and a name that [encodeURIComponent]
    refuses. *)
Theorem grid_never_empty :
  forall (localeCompare : jsstring -> jsstring -> Z) (isLoading : bool)
         (contacts : list Contact.t) (searchQuery : jsstring)
         (sortOption : View.SortOption),
    let projected :=
      View.project localeCompare contacts searchQuery sortOption in
    match render localeCompare isLoading contacts searchQuery sortOption
    with
    | Some ShowLoadingState => isLoading = true
    | Some ShowEmptyState =>
        isLoading = false /\ Spec.blank searchQuery /\ contacts = []
    | Some (ShowNoContactsFound q) =>
        isLoading = false /\ q = searchQuery
        /\ ~ Spec.blank searchQuery /\ projected = []
    | Some (ShowGrid cards) =>
        isLoading = false /\ cards <> []
        /\ length cards = length projected
        /\ map Listing.contact cards = projected
    | None =>
        exists c, In c projected
                  /\ or_empty (Contact.avatar c) = []
                  /\ encodeURIComponent (Contact.name c) = None
    end.
Proof.
  intros localeCompare isLoading contacts searchQuery sortOption projected.
  unfold render; fold projected.
  destruct (contactCards projected) as [cards|] eqn:Hcards.
  - pose proof (contactCards_contacts _ _ Hcards) as Hcontacts.
    destruct (map_indexed_some _ _ _ _ Hcards) as [Hlen _].
    destruct isLoading; [reflexivity|].
    unfold showEmptyState, showEmptySearch.
    destruct (is_empty (trim searchQuery)) eqn:Hq; simpl.
    + apply is_empty_trim in Hq.
      destruct contacts as [|c contacts]; simpl; [auto|].
      assert (Hp : length projected = S (length contacts)).
      { unfold projected.
        now rewrite (projection_rearranges_blank localeCompare
                       (c :: contacts) searchQuery sortOption Hq). }
      split; [reflexivity|].
      split; [|split; [exact Hlen | exact Hcontacts]].
      intros E; rewrite E in Hlen; simpl in Hlen; lia.
    + assert (Hnb : ~ Spec.blank searchQuery).
      { intros Hb; apply is_empty_trim in Hb; congruence. }
      destruct projected as [|c projected'] eqn:Hp; simpl; [auto|].
      split; [reflexivity|].
      split; [|split; [exact Hlen | exact Hcontacts]].
      intros E; rewrite E in Hlen; simpl in Hlen; lia.
  - destruct (map_indexed_none _ _ _ Hcards) as [i [c [Hi Hc]]].
    exists c; split; [exact (nth_error_In _ _ Hi)|].
    now apply (contactCard_none c (0 + i)).
Qed.

End ListingExtras.

Section AvatarUrl.
Import Js Listing.

Lemma hex_digit_safe (n : N) : Spec.url_safe (hex_digit n) = true.
Proof.
  unfold hex_digit.
  assert (H : forallb Spec.url_safe (str "0123456789ABCDEF") = true)
    by (vm_compute; reflexivity).
  rewrite forallb_forall in H.
  destruct (Nat.lt_ge_cases (N.to_nat n) 16) as [Hn|Hn].
  - apply H, nth_In; exact Hn.
  - rewrite nth_overflow by exact Hn; vm_compute; reflexivity.
Qed.

Lemma percent_safe (bytes : list N) :
  forallb Spec.url_safe (flat_map percent bytes) = true.
Proof.
  induction bytes as [|b bytes IH]; [reflexivity|].
  change (forallb Spec.url_safe (percent b ++ flat_map percent bytes) = true).
  rewrite forallb_app, IH, andb_true_r.
  unfold percent; cbn [forallb]; now rewrite !hex_digit_safe.
Qed.

Lemma encode_point_safe (p : point) :
  forallb Spec.url_safe (encode_point p) = true.
Proof.
  destruct p as [u|hi lo]; unfold encode_point; [|apply percent_safe].
  destruct (unreserved u) eqn:Hu; [|apply percent_safe].
  simpl; unfold Spec.url_safe; now rewrite Hu.
Qed.

Lemma encodeURIComponent_safe (s encoded : jsstring) :
  encodeURIComponent s = Some encoded -> forallb Spec.url_safe encoded = true.
Proof.
  unfold encodeURIComponent.
  destruct (existsb unpaired (decode s)); [discriminate|].
  intros H; injection H as <-.
  induction (decode s) as [|p ps IH]; [reflexivity|].
  simpl; now rewrite forallb_app, encode_point_safe, IH.
Qed.

Lemma color_in_range (index : nat) :
  exists k, k < 8 /\ index mod length AVATAR_COLORS = k.
Proof.
  exists (index mod 8); split; [apply Nat.mod_upper_bound; lia | reflexivity].
Qed.

Lemma high_not_low (u : N) : is_high u = true -> is_low u = false.
Proof. unfold is_high, is_low, in_range; lia. Qed.

Lemma unpaired_decode (n : nat) : forall (s : jsstring) (prev : option N),
  length s <= n ->
  Spec.high_before prev && Spec.low_next s = false ->
  existsb unpaired (decode s) = Spec.lone_surrogate_after prev s.
Proof.
  induction n as [|n IH]; intros s prev Hn Hprev.
  - destruct s; [reflexivity | simpl in Hn; lia].
  - destruct s as [|hi s]; [reflexivity|].
    rewrite decode_cons.
    destruct s as [|lo s].
    + simpl in Hprev |- *.
      destruct (is_high hi) eqn:Hh; [now rewrite (high_not_low hi Hh)|].
      destruct (is_low hi), (Spec.high_before prev); try reflexivity.
      discriminate.
    + simpl in Hn.
      destruct (is_high hi && is_low lo) eqn:Hp.
      * apply andb_true_iff in Hp as [Hh Hl].
        assert (Hlh : is_high lo = false).
        { destruct (is_high lo) eqn:E; [|reflexivity].
          apply high_not_low in E; congruence. }
        cbn [existsb unpaired Spec.lone_surrogate_after Spec.low_next
             Spec.high_before].
        rewrite (IH s (Some lo)) by (simpl; rewrite ?Hlh; auto; lia).
        now rewrite Hh, Hl, Hlh, (high_not_low hi Hh).
      * cbn [existsb unpaired].
        rewrite (IH (lo :: s) (Some hi)) by (simpl; auto; lia).
        change (Spec.lone_surrogate_after prev (hi :: lo :: s))
          with (is_high hi && negb (is_low lo)
                || is_low hi && negb (Spec.high_before prev)
                || Spec.lone_surrogate_after (Some hi) (lo :: s)).
        f_equal.
        simpl in Hprev.
        destruct (is_high hi) eqn:Hh.
        { rewrite (high_not_low hi Hh); simpl in Hp; now rewrite Hp. }
        destruct (is_low hi), (Spec.high_before prev); try reflexivity.
        discriminate.
Qed.

(** [encodeURIComponent] throws exactly on the strings that hold a lone
    surrogate. *)
Lemma encodeURIComponent_throws (s : jsstring) :
  encodeURIComponent s = None <-> Spec.lone_surrogate s = true.
Proof.
  unfold encodeURIComponent, Spec.lone_surrogate.
  rewrite <- (unpaired_decode (length s) s None (le_n _) eq_refl).
  destruct (existsb unpaired (decode s)); split;
    try discriminate; reflexivity.
Qed.

(** X19.  The generated avatar address.  A card shows the avatar of its
    contact when there is one.  Otherwise it asks the avatar service: when
    the name holds no lone surrogate, [encodeURIComponent] returns a text
    of unreserved characters and percent escapes only, and the address has
    exactly the six query parameters name, size, background, color, bold
    and format, the background being the border colour without its "#";
    when the name holds a lone surrogate, and only then,
    [encodeURIComponent] throws and no card is made.  The border colour of
    a card is one of the eight of [AVATAR_COLORS]. *)
Theorem avatar_url_parameters :
  forall (contact : Contact.t) (index : nat),
    (forall card, contactCard contact index = Some card ->
                  In (borderColor card) (map border AVATAR_COLORS))
    /\ (forall avatar, Contact.avatar contact = Val avatar -> avatar <> [] ->
        exists card, contactCard contact index = Some card
                     /\ avatarUrl card = avatar)
    /\ (or_empty (Contact.avatar contact) = [] ->
        match encodeURIComponent (Contact.name contact) with
        | Some name =>
            exists card,
              contactCard contact index = Some card
              /\ split (ch "&") (avatarUrl card)
                 = [ str "https://ui-avatars.com/api/?name=" ++ name;
                     str "size=400";
                     str "background="
                       ++ remove_first (ch "#") (borderColor card);
                     str "color=fff";
                     str "bold=true";
                     str "format=svg" ]
              /\ forallb Spec.url_safe name = true
        | None => contactCard contact index = None
        end)
    /\ (encodeURIComponent (Contact.name contact) = None
        <-> Spec.lone_surrogate (Contact.name contact) = true).
Proof.
  intros contact index.
  split; [|split; [|split; [|apply encodeURIComponent_throws]]].
  - intros card; unfold contactCard.
    destruct (color_in_range index) as [k [Hk ->]].
    destruct (if negb _ then _ else _); [|discriminate].
    intros H; injection H as <-; cbn [borderColor].
    do 8 (destruct k as [|k]; [simpl; auto 10|]); lia.
  - intros avatar Ha Hne; unfold contactCard; rewrite Ha.
    destruct avatar as [|c avatar]; [contradiction|].
    eexists; split; reflexivity.
  - intros Hnone; unfold contactCard; rewrite Hnone.
    cbn [is_empty negb].
    destruct (encodeURIComponent (Contact.name contact)) as [name|] eqn:He;
      [|reflexivity].
    eexists; split; [reflexivity|]; cbn [avatarUrl borderColor].
    pose proof (encodeURIComponent_safe _ _ He) as Hsafe.
    split; [|exact Hsafe].
    destruct (color_in_range index) as [k [Hk ->]].
    assert (Hname : ~ In (ch "&")
                      (str "https://ui-avatars.com/api/?name=" ++ name)).
    { rewrite in_app_iff; intros [H|H].
      - vm_compute in H; intuition discriminate.
      - rewrite forallb_forall in Hsafe; specialize (Hsafe _ H).
        vm_compute in Hsafe; discriminate. }
    set (color := remove_first (ch "#") (border (nth k AVATAR_COLORS _))).
    change (str "&size=400&background=" ++ color
            ++ str "&color=fff&bold=true&format=svg")
      with (ch "&" :: str "size=400&background=" ++ color
            ++ str "&color=fff&bold=true&format=svg").
    rewrite app_assoc, split_app_sep by exact Hname.
    f_equal; unfold color.
    do 8 (destruct k as [|k]; [reflexivity|]); lia.
Qed.

Lemma avatar_url_parameters_witness :
  (exists card,
      contactCard
        (Contact.mk (str "7") (str "R&D #1 = a b") Undefined Undefined
                    Undefined) 9 = Some card
      /\ split (ch "&") (avatarUrl card)
         = [ str "https://ui-avatars.com/api/?name=R%26D%20%231%20%3D%20a%20b";
             str "size=400"; str "background=10B981"; str "color=fff";
             str "bold=true"; str "format=svg" ])
  /\ contactCard
       (Contact.mk (str "8") [55357%N] Undefined Undefined Undefined) 0
     = None.
Proof.
  split.
  - destruct (proj1 (proj2 (proj2 (avatar_url_parameters
             (Contact.mk (str "7") (str "R&D #1 = a b") Undefined Undefined
                         Undefined) 9))) eq_refl)
      as [card [Hc [Hs _]]].
    exists card; split; [exact Hc|].
    rewrite Hs; vm_compute in Hc; injection Hc as <-.
    vm_compute; reflexivity.
  - exact (proj1 (proj2 (proj2 (avatar_url_parameters
             (Contact.mk (str "8") [55357%N] Undefined Undefined Undefined)
             0))) eq_refl).
Defined.

End AvatarUrl.

Section CardExtras.
Import Js CardText.

Lemma split_lines (s rest : jsstring) :
  ~ In LF s -> split LF (s ++ [LF] ++ rest) = s :: split LF rest.
Proof. intros H; now apply split_app_sep. Qed.

Lemma line_no_LF (label : jsstring) (o : optional) :
  ~ In LF label -> ~ In LF (or_empty o) -> ~ In LF (line label o).
Proof.
  intros Hl Ho; unfold line; destruct (given o); [|intros []].
  rewrite in_app_iff; tauto.
Qed.

(** X20.  The vCard reads back line by line.  When neither the name nor the
    email nor the phone holds a line feed, the text behind the QR code is
    exactly six lines: the two header lines, FN: with the name, the EMAIL:
    line, the TEL: line and the closing line; the line of an email or
    phone that is absent or empty is an empty line. *)
Theorem vcard_lines :
  forall contact : Contact.t,
    ~ In LF (Contact.name contact) ->
    ~ In LF (or_empty (Contact.email contact)) ->
    ~ In LF (or_empty (Contact.phone contact)) ->
    split LF (getContactVCard contact)
    = [ str "BEGIN:VCARD";
        str "VERSION:3.0";
        str "FN:" ++ Contact.name contact;
        (if given (Contact.email contact)
         then str "EMAIL:" ++ or_empty (Contact.email contact) else []);
        (if given (Contact.phone contact)
         then str "TEL:" ++ or_empty (Contact.phone contact) else []);
        str "END:VCARD" ].
Proof.
  intros contact Hn He Hp; unfold getContactVCard.
  assert (Hfn : ~ In LF (str "FN:" ++ Contact.name contact)).
  { rewrite in_app_iff; intros [H|H]; [|contradiction].
    vm_compute in H; intuition discriminate. }
  assert (Hemail : ~ In LF (line (str "EMAIL:") (Contact.email contact))).
  { apply line_no_LF; [|exact He]. vm_compute; intuition discriminate. }
  assert (Htel : ~ In LF (line (str "TEL:") (Contact.phone contact))).
  { apply line_no_LF; [|exact Hp]. vm_compute; intuition discriminate. }
  rewrite split_lines by (vm_compute; intuition discriminate).
  rewrite split_lines by (vm_compute; intuition discriminate).
  rewrite (app_assoc (str "FN:")), split_lines by exact Hfn.
  rewrite split_lines by exact Hemail.
  rewrite split_lines by exact Htel.
  rewrite split_no_sep by (vm_compute; intuition discriminate).
  reflexivity.
Qed.

Lemma vcard_lines_witness :
  split LF
    (getContactVCard
       (Contact.mk (str "7") (str "Ada Lovelace") Undefined
                   (Val (str "+44 20 7946 0958")) Missing))
  = [ str "BEGIN:VCARD"; str "VERSION:3.0"; str "FN:Ada Lovelace"; [];
      str "TEL:+44 20 7946 0958"; str "END:VCARD" ].
Proof.
  apply (vcard_lines
           (Contact.mk (str "7") (str "Ada Lovelace") Undefined
                       (Val (str "+44 20 7946 0958")) Missing));
    vm_compute; intuition discriminate.
Defined.

End CardExtras.

Section CopyText.
Import Js CardText.

Lemma trimStart_app_blank (w s : jsstring) :
  Spec.blank w -> trimStart (w ++ s) = trimStart s.
Proof.
  induction 1 as [|c w Hc _ IH]; simpl; [reflexivity|].
  now rewrite Hc.
Qed.

Lemma trimEnd_app_blank (s w : jsstring) :
  Spec.blank w -> trimEnd (s ++ w) = trimEnd s.
Proof.
  intros Hw; unfold trimEnd.
  rewrite rev_app_distr, trimStart_app_blank; [reflexivity|].
  now apply blank_rev.
Qed.

Lemma trimEnd_ends_in_text (s : jsstring) z :
  is_ws z = false -> trimEnd (s ++ [z]) = s ++ [z].
Proof.
  intros Hz; unfold trimEnd.
  rewrite rev_app_distr; simpl; rewrite Hz; simpl.
  now rewrite rev_involutive.
Qed.

Lemma contactText_body (contact : Contact.t) :
  contactText contact
  = trimEnd (str "Name: " ++ Contact.name contact ++ [LF]
             ++ line (str "Email: ") (Contact.email contact) ++ [LF]
             ++ line (str "Phone: ") (Contact.phone contact)).
Proof.
  unfold contactText, trim.
  set (email := line (str "Email: ") (Contact.email contact)).
  set (phone := line (str "Phone: ") (Contact.phone contact)).
  set (rest := Contact.name contact ++ [LF] ++ email ++ [LF] ++ phone
               ++ [LF] ++ str "    ").
  change (trimStart ([LF] ++ str "Name: " ++ rest))
    with (str "Name: " ++ rest).
  unfold rest; rewrite !app_assoc.
  rewrite <- (app_assoc _ [LF] (str "    ")).
  rewrite trimEnd_app_blank by repeat constructor.
  now rewrite <- !app_assoc.
Qed.

(** X21.  What the copy button copies.  Neither the line break that opens
    the template nor the indentation that closes it reaches the clipboard.
    For a contact whose fields end in a character that is not white space:
    with a phone
    the text is the name line, the email line (an empty line when there
    is no email) and the phone line; with an email only it is the name
    line and the email line; with neither it is the name line alone. *)
Theorem copied_text :
  forall contact : Contact.t,
    let name := Contact.name contact in
    let email := or_empty (Contact.email contact) in
    let phone := or_empty (Contact.phone contact) in
    let ends_in_text (s : jsstring) :=
      exists s' z, s = s' ++ [z] /\ is_ws z = false in
    (ends_in_text phone ->
       contactText contact
       = str "Name: " ++ name ++ [LF]
         ++ (if given (Contact.email contact) then str "Email: " ++ email
             else [])
         ++ [LF] ++ str "Phone: " ++ phone)
    /\ (phone = [] -> ends_in_text email ->
        contactText contact
        = str "Name: " ++ name ++ [LF] ++ str "Email: " ++ email)
    /\ (phone = [] -> email = [] -> ends_in_text name ->
        contactText contact = str "Name: " ++ name).
Proof.
  intros contact name email phone ends_in_text.
  rewrite contactText_body; fold name.
  assert (Hgiven : forall o s' z, or_empty o = s' ++ [z] -> given o = true).
  { intros o s' z H; unfold given; rewrite H; now destruct s'. }
  assert (Hnone : forall o, or_empty o = [] -> given o = false).
  { intros o H; unfold given; now rewrite H. }
  split; [|split].
  - intros [s' [z [Hp Hz]]].
    unfold line at 2; rewrite (Hgiven _ _ _ Hp).
    fold phone; rewrite Hp.
    unfold line; fold email.
    rewrite !app_assoc.
    now rewrite trimEnd_ends_in_text.
  - intros Hp [s' [z [He Hz]]].
    unfold line; rewrite (Hnone _ Hp), (Hgiven _ _ _ He).
    fold email; rewrite He, app_nil_r.
    rewrite !app_assoc, trimEnd_app_blank by repeat constructor.
    now rewrite trimEnd_ends_in_text.
  - intros Hp He [s' [z [Hn Hz]]].
    unfold line; rewrite (Hnone _ Hp), (Hnone _ He).
    change (trimEnd ((str "Name: " ++ name) ++ [LF; LF])
            = str "Name: " ++ name).
    rewrite trimEnd_app_blank by repeat constructor.
    rewrite Hn, app_assoc.
    now rewrite trimEnd_ends_in_text.
Qed.

Lemma copied_text_witness :
  contactText
    (Contact.mk (str "7") (str "Ada Lovelace") Undefined
                (Val (str "+44 20 7946 0958")) Missing)
  = str "Name: Ada Lovelace" ++ [LF] ++ [LF]
    ++ str "Phone: +44 20 7946 0958"
  /\ contactText
       (Contact.mk (str "8") (str "Bob") Missing Missing Missing)
     = str "Name: Bob".
Proof.
  split.
  - refine (proj1 (copied_text
      (Contact.mk (str "7") (str "Ada Lovelace") Undefined
                  (Val (str "+44 20 7946 0958")) Missing)) _).
    exists (str "+44 20 7946 095"), (ch "8"); split; reflexivity.
  - refine (proj2 (proj2 (copied_text
      (Contact.mk (str "8") (str "Bob") Missing Missing Missing)))
      eq_refl eq_refl _).
    exists (str "Bo"), (ch "b"); split; reflexivity.
Defined.

End CopyText.

Section ShortLabelTable.
Import Js Form.

Lemma rejected_by_short_label_table
    (email local domain : jsstring) (more labels : list jsstring)
    (sld : jsstring) :
  split (ch "@") email = local :: domain :: more ->
  split (ch ".") (toLowerCase domain) = labels ++ [sld; str "com"] ->
  truthy (get sldTypos sld) = true ->
  validateEmail email = false.
Proof.
  intros Hsplit Hparts Hsld; unfold validateEmail.
  rewrite (split_two_not_empty _ _ _ _ Hsplit), Hsplit.
  destruct (test basicRegex _); [simpl | reflexivity].
  destruct (is_empty local || _); [reflexivity|].
  rewrite Hparts.
  destruct (nth_last_two labels sld (str "com") []) as [H2 H1].
  cbv zeta in H2, H1; rewrite H2, H1.
  destruct (length _ <? 2); [reflexivity|].
  destruct (is_empty sld || _); [reflexivity|].
  destruct (truthy (get typoDomains _)); [reflexivity|].
  now rewrite Hsld.
Qed.

(** X4.  The table of short labels.  An email whose domain, lower-cased, ends
    in one of the labels g, gm, gma, gmai, gml, gmal followed by the
    top-level label com fails validation, and the form blocks the
    submission. *)
Theorem short_label_typos_rejected :
  forall (local domain : jsstring) (more labels : list jsstring)
         (sld : jsstring) (formData : FormData.t),
    split (ch "@") (FormData.email formData) = local :: domain :: more ->
    split (ch ".") (toLowerCase domain) = labels ++ [sld; str "com"] ->
    In sld (map fst sldTypos) ->
    validateEmail (FormData.email formData) = false
    /\ FormErrors.email (fst (validateForm formData)) <> None
    /\ (forall editContact onEdit,
          handleSubmit editContact onEdit formData = None).
Proof.
  intros local domain more labels sld formData Hsplit Hparts Hin.
  assert (Hv : validateEmail (FormData.email formData) = false).
  { apply (rejected_by_short_label_table _ _ _ _ _ _ Hsplit Hparts).
    simpl in Hin.
    repeat (destruct Hin as [<-|Hin]; [reflexivity|]).
    destruct Hin. }
  assert (He : FormErrors.email (fst (validateForm formData)) <> None).
  { unfold validateForm; simpl.
    apply email_rejected_has_error; [|exact Hv].
    apply is_empty_false, (split_two_not_empty _ _ _ _ Hsplit). }
  split; [exact Hv|]. split; [exact He|].
  now apply blocked_by_validation, email_error_blocks.
Qed.

Lemma short_label_typos_rejected_witness :
  validateEmail (str "ada@Mail.GML.com") = false.
Proof.
  refine (proj1 (short_label_typos_rejected (str "ada") (str "Mail.GML.com")
                   [] [str "mail"] (str "gml")
                   (FormData.mk (str "Ada") (str "ada@Mail.GML.com") [] [])
                   eq_refl eq_refl _)).
  simpl; auto 10.
Defined.

(** X5.  Property names every object inherits count as typos.  The short-label
    table is an object literal, so looking up the labels constructor and
    __proto__ finds what [Object.prototype] supplies: an email whose
    lower-cased domain ends in constructor.com or __proto__.com fails
    validation although neither label is in the table. *)
Theorem inherited_names_rejected :
  forall (local domain : jsstring) (more labels : list jsstring)
         (sld : jsstring) (formData : FormData.t),
    split (ch "@") (FormData.email formData) = local :: domain :: more ->
    split (ch ".") (toLowerCase domain) = labels ++ [sld; str "com"] ->
    sld = str "constructor" \/ sld = str "__proto__" ->
    assoc sld sldTypos = None
    /\ validateEmail (FormData.email formData) = false
    /\ (forall editContact onEdit,
          handleSubmit editContact onEdit formData = None).
Proof.
  intros local domain more labels sld formData Hsplit Hparts Hsld.
  assert (Hv : validateEmail (FormData.email formData) = false).
  { apply (rejected_by_short_label_table _ _ _ _ _ _ Hsplit Hparts).
    destruct Hsld as [-> | ->]; reflexivity. }
  split; [destruct Hsld as [-> | ->]; reflexivity|].
  split; [exact Hv|].
  apply blocked_by_validation, email_error_blocks.
  unfold validateForm; simpl.
  apply email_rejected_has_error; [|exact Hv].
  apply is_empty_false, (split_two_not_empty _ _ _ _ Hsplit).
Qed.

Lemma inherited_names_rejected_witness :
  validateEmail (str "ada@constructor.com") = false.
Proof.
  refine (proj1 (proj2 (inherited_names_rejected (str "ada")
                   (str "constructor.com") [] [] (str "constructor")
                   (FormData.mk (str "Ada") (str "ada@constructor.com")
                                [] [])
                   eq_refl eq_refl _))).
  now left.
Defined.

End ShortLabelTable.
